(** * CAIP code_analysis: address frequency counter and contract-address list

  A shallow embedding of the two command-line tools under
  [code_analysis/]:

  - [get_address_freq.cpp] counts how often every address occurs in the
    two columns of [./filtered_address.csv];
  - [read_data.cpp] collects the distinct first-column addresses of
    [./ContractInfo_queYixie/ContractInfo_queHenduo.csv].

  Machine model (LP64): [int] is 32 bits and signed, [std::size_t] is 64
  bits and unsigned.  Unsigned arithmetic wraps; a conversion of a size_t
  to [int] keeps the low 32 bits (what C++20 prescribes and compilers did
  before); signed overflow is undefined behaviour and is an outcome of
  its own, and so is an exception that leaves [main].

  A run reads from a file system, a finite map from paths to contents,
  and yields the trace of what it prints and writes together with its
  exit status.  The iteration order of the unordered containers is a
  parameter of the programs: the language leaves it unspecified, and the
  statements hold for every order that visits each entry once.

  Definitions come first: the C++ operations the programs use, the two
  programs, and the vocabulary of the statements.  The proofs follow. *)

From Stdlib Require Import ZArith Lia Ascii.
From Stdlib Require String.
From stdpp Require Import base option list gmap strings pretty sorting.

Local Open Scope Z_scope.

(** ** The parts of C++ the two programs use *)

Module Cxx.

(** How a computation ends. *)
Inductive outcome (A : Type) : Type :=
| Done (a : A)           (* ran to its end *)
| OutOfRange             (* std::out_of_range left main: std::terminate *)
| SignedOverflow         (* an int computation left [INT_MIN, INT_MAX] *)
| OutOfFuel.             (* the loop bound of the model was too small *)
Arguments Done {A} a.
Arguments OutOfRange {A}.
Arguments SignedOverflow {A}.
Arguments OutOfFuel {A}.

#[global] Instance outcome_ret : MRet outcome := @Done.
#[global] Instance outcome_bind : MBind outcome := λ A B f x,
  match x with
  | Done a => f a
  | OutOfRange => OutOfRange
  | SignedOverflow => SignedOverflow
  | OutOfFuel => OutOfFuel
  end.

(** *** int and size_t *)

Definition INT_MAX : Z := 2147483647.
Definition INT_MIN : Z := -2147483648.
Definition SIZE_MAX : Z := 18446744073709551615.

(** [static_cast<size_t>(z)] and the result of size_t arithmetic. *)
Definition to_size_t (z : Z) : Z := z mod (SIZE_MAX + 1).

(** [int x = z] for a size_t [z]: the low 32 bits, read as signed. *)
Definition to_int (z : Z) : Z := (z - INT_MIN) mod 4294967296 + INT_MIN.

(** [a + b] on int. *)
Definition int_add (a b : Z) : outcome Z :=
  let r := a + b in
  if (INT_MIN <=? r) && (r <=? INT_MAX) then Done r else SignedOverflow.

(** [a - b] on size_t. *)
Definition size_sub (a b : Z) : Z := to_size_t (a - b).

(** *** std::string *)

Definition npos : Z := SIZE_MAX.

Definition string_size (s : string) : Z := Z.of_nat (String.length s).

Fixpoint index_of (c : ascii) (s : string) : option nat :=
  match s with
  | EmptyString => None
  | String a r => if decide (a = c) then Some O else S <$> index_of c r
  end.

(** [s.find_first_of(c)]: the index of the first [c], or [npos]. *)
Definition find_first_of (s : string) (c : ascii) : Z :=
  match index_of c s with
  | Some i => Z.of_nat i
  | None => npos
  end.

Fixpoint str_take (n : nat) (s : string) : string :=
  match n, s with
  | S n', String a r => String a (str_take n' r)
  | _, _ => EmptyString
  end.

Fixpoint str_drop (n : nat) (s : string) : string :=
  match n, s with
  | S n', String _ r => str_drop n' r
  | _, _ => s
  end.

Arguments str_take : simpl nomatch.
Arguments str_drop : simpl nomatch.

(** [s.substr(pos, n)] with size_t arguments: throws when [pos] is past
    the end, and otherwise clips [n] to what is left. *)
Definition substr (s : string) (pos n : Z) : outcome string :=
  if string_size s <? pos then OutOfRange
  else Done (str_take (Z.to_nat (Z.min n (string_size s - pos)))
                      (str_drop (Z.to_nat pos) s)).

(** *** Files and streams *)

Definition newline : ascii := ascii_of_nat 10.
Definition comma : ascii := ascii_of_nat 44.
Definition endl : string := String newline EmptyString.

(** A file system: the content of every file that can be opened. *)
Abbreviation filesystem := (gmap string string).

Record ifstream : Type := Ifstream {
  is_open : bool;
  buf : string;        (* what has not been read yet *)
  eofbit : bool;
  failbit : bool
}.

(** [ifstream fin; fin.open(path);] *)
Definition ifstream_open (fs : filesystem) (path : string) : ifstream :=
  match fs !! path with
  | Some content => Ifstream true content false false
  | None => Ifstream false EmptyString false true
  end.

Definition eof (fin : ifstream) : bool := eofbit fin.

Definition good (fin : ifstream) : bool :=
  is_open fin && negb (eofbit fin) && negb (failbit fin).

(** The characters up to the first [d], and what follows that [d]; no
    rest when the end of the input comes first. *)
Fixpoint read_until (d : ascii) (s : string) : string * option string :=
  match s with
  | EmptyString => (EmptyString, None)
  | String a r =>
      if decide (a = d) then (EmptyString, Some r)
      else let '(line, rest) := read_until d r in (String a line, rest)
  end.

(** [getline(fin, s)].  A stream that is not good only gets its failbit
    set and leaves [s] as it is.  Otherwise [s] is erased and filled up
    to the next newline, which is consumed and not stored; reaching the
    end of the file sets eofbit, and failbit too when nothing at all was
    extracted. *)
Definition getline (fin : ifstream) (s : string) : ifstream * string :=
  if good fin then
    match read_until newline (buf fin) with
    | (line, Some rest) => (Ifstream (is_open fin) rest false false, line)
    | (line, None) =>
        (Ifstream (is_open fin) EmptyString true
                  (bool_decide (line = EmptyString)), line)
    end
  else (Ifstream (is_open fin) (buf fin) (eofbit fin) true, s).

(** What a run shows to the outside, in the order it happens. *)
Inductive event : Type :=
| Cout (text : string)                 (* cout << ... << endl *)
| Create (path : string)               (* ofstream fout(path): truncates *)
| Fout (path : string) (text : string) (* fout << ... << endl *).

Definition apply_event (fs : filesystem) (e : event) : filesystem :=
  match e with
  | Cout _ => fs
  | Create p => <[p := EmptyString]> fs
  | Fout p t => alter (λ c, c +:+ t) p fs
  end.

(** The file system a trace leaves behind. *)
Definition fs_after (fs : filesystem) (tr : list event) : filesystem :=
  foldl apply_event fs tr.

(** Everything a trace printed to standard output. *)
Fixpoint stdout_of (tr : list event) : string :=
  match tr with
  | [] => EmptyString
  | Cout t :: tr' => t +:+ stdout_of tr'
  | _ :: tr' => stdout_of tr'
  end.

(** The lines a trace wrote to [path], one per [<< endl], in order. *)
Fixpoint lines_to (path : string) (tr : list event) : list string :=
  match tr with
  | [] => []
  | Fout p t :: tr' =>
      if decide (p = path) then t :: lines_to path tr' else lines_to path tr'
  | _ :: tr' => lines_to path tr'
  end.

(** The values [s] takes in the successive passes of
    [while (!fin.eof()) { getline(fin, s); ... }], the read loop of both
    programs. *)
Fixpoint lines_read (fuel : nat) (fin : ifstream) (s : string) : list string :=
  if eof fin then []
  else match fuel with
       | O => []
       | S fuel' =>
           let '(fin', s') := getline fin s in s' :: lines_read fuel' fin' s'
       end.

(** The lines the read loop of a run processes, for a program that reads
    the file at [path]: one [getline] for the header, then the loop. *)
Definition processed (path : string) (fs : filesystem) : list string :=
  let fin := ifstream_open fs path in
  if is_open fin then
    let '(fin1, s1) := getline fin EmptyString in
    lines_read (S (String.length (buf fin1))) fin1 s1
  else [].

End Cxx.

Export Cxx.

(** ** get_address_freq.cpp *)

Module AddressFreq.

Definition in_path : string := "./filtered_address.csv".
Definition out_path : string := "filtered_address_freq_count.csv".

(** [string get_first_address(string & data_line)] *)
Definition get_first_address (data_line : string) : outcome string :=
  substr data_line 0 (find_first_of data_line comma).

(** [string get_second_address(string & data_line)] *)
Definition get_second_address (data_line : string) : outcome string :=
  let pos := to_int (find_first_of data_line comma) in
  p1 ← int_add pos 1;
  substr data_line (to_size_t p1)
         (size_sub (size_sub (string_size data_line) (to_size_t pos)) 1).

(** [address_map[key]++] on an [unordered_map<string, int>]: a missing
    key is first inserted with the value 0. *)
Definition increment (address_map : gmap string Z) (key : string)
  : outcome (gmap string Z) :=
  c ← int_add (default 0 (address_map !! key)) 1;
  Done (<[key := c]> address_map).

(** The three statements of the loop body that follow [getline]:
    [int pos = s.find_first_of(',');]
    [address_map[s.substr(0, pos)]++;]
    [address_map[s.substr(pos + 1, s.size() - pos - 1)]++;] *)
Definition count_line (s : string) (address_map : gmap string Z)
  : outcome (gmap string Z) :=
  let pos := to_int (find_first_of s comma) in
  k1 ← substr s 0 (to_size_t pos);
  m1 ← increment address_map k1;
  p1 ← int_add pos 1;
  k2 ← substr s (to_size_t p1)
         (size_sub (size_sub (string_size s) (to_size_t pos)) 1);
  increment m1 k2.

(** [while (!fin.eof()) { getline(fin, s); ... }] *)
Fixpoint read_loop (fuel : nat) (fin : ifstream) (s : string)
    (address_map : gmap string Z)
  : outcome (ifstream * string * gmap string Z) :=
  if eof fin then Done (fin, s, address_map)
  else match fuel with
       | O => OutOfFuel
       | S fuel' =>
           let '(fin', s') := getline fin s in
           m ← count_line s' address_map;
           read_loop fuel' fin' s' m
       end.

(** [if (fin.is_open()) { getline(fin, s); while ... }] from a fresh
    table and an empty [s]. *)
Definition read_input (fs : filesystem) : outcome (gmap string Z) :=
  let fin := ifstream_open fs in_path in
  if is_open fin then
    let '(fin1, s1) := getline fin EmptyString in
    '(_, _, m) ← read_loop (S (String.length (buf fin1))) fin1 s1 ∅;
    Done m
  else Done ∅.

(** The records of a run: the lines its read loop processes. *)
Definition records (fs : filesystem) : list string := processed in_path fs.

(** [fout << iter->first << ',' << iter->second << endl;] *)
Definition row (entry : string * Z) : string :=
  entry.1 +:+ String comma (pretty entry.2) +:+ endl.

Definition header : string := "address,count" +:+ endl.

(** From [cout << address_map.size() << endl;] to [fout.close();], for
    an [iteration] order of the table. *)
Definition report (iteration : gmap string Z → list (string * Z))
    (address_map : gmap string Z) : list event :=
  Cout (pretty (size address_map) +:+ endl)
  :: Create out_path
  :: Fout out_path header
  :: ((λ entry, Fout out_path (row entry)) <$> iteration address_map).

(** [int main()]: the trace of the run and the exit status. *)
Definition main (iteration : gmap string Z → list (string * Z))
    (fs : filesystem) : outcome (list event * Z) :=
  address_map ← read_input fs;
  Done (report iteration address_map, 0).

End AddressFreq.

(** ** read_data.cpp *)

Module ReadData.

Definition in_path : string :=
  "./ContractInfo_queYixie/ContractInfo_queHenduo.csv".
Definition out_path : string := "contract_address_list.csv".

(** [string get_address(string & data_line)] *)
Definition get_address (data_line : string) : outcome string :=
  substr data_line 0 (find_first_of data_line comma).

(** [while (!fin.eof()) { getline(fin, s); address_set.insert(get_address(s)); }] *)
Fixpoint read_loop (fuel : nat) (fin : ifstream) (s : string)
    (address_set : gset string) : outcome (ifstream * string * gset string) :=
  if eof fin then Done (fin, s, address_set)
  else match fuel with
       | O => OutOfFuel
       | S fuel' =>
           let '(fin', s') := getline fin s in
           a ← get_address s';
           read_loop fuel' fin' s' ({[a]} ∪ address_set)
       end.

Definition read_input (fs : filesystem) : outcome (gset string) :=
  let fin := ifstream_open fs in_path in
  if is_open fin then
    let '(fin1, s1) := getline fin EmptyString in
    '(_, _, X) ← read_loop (S (String.length (buf fin1))) fin1 s1 ∅;
    Done X
  else Done ∅.

(** The records of a run: the lines its read loop processes. *)
Definition records (fs : filesystem) : list string := processed in_path fs.

Definition header : string := "contract_address" +:+ endl.

(** From [cout << address_set.size() << endl;] to [fout.close();], for
    an [iteration] order of the set. *)
Definition report (iteration : gset string → list string)
    (address_set : gset string) : list event :=
  Cout (pretty (size address_set) +:+ endl)
  :: Create out_path
  :: Fout out_path header
  :: ((λ a, Fout out_path (a +:+ endl)) <$> iteration address_set).

(** [int main()] *)
Definition main (iteration : gset string → list string)
    (fs : filesystem) : outcome (list event * Z) :=
  address_set ← read_input fs;
  Done (report iteration address_set, 0).

End ReadData.

(** ** Vocabulary of the statements *)

(** The iteration orders an unordered container may have: each entry
    once, in any order. *)
Definition map_order (iteration : gmap string Z → list (string * Z)) : Prop :=
  ∀ m, iteration m ≡ₚ map_to_list m.

Definition set_order (iteration : gset string → list string) : Prop :=
  ∀ X, iteration X ≡ₚ elements X.

(** The two fields of a record: the text before its first comma and the
    text after it.  A line without a comma counts as both of its fields. *)
Definition columns (l : string) : string * string :=
  match index_of comma l with
  | Some i => (str_take i l, str_drop (S i) l)
  | None => (l, l)
  end.

(** The addresses of a list of records, in the order they are counted. *)
Definition addresses (ls : list string) : list string :=
  ls ≫= λ l, [(columns l).1; (columns l).2].

(** How often [a] occurs in [ks]. *)
Definition occurrences (a : string) (ks : list string) : Z :=
  Z.of_nat (length (filter (a =.) ks)).

(** A line the splitting code handles within the range of [int] and
    [size_t]: its first comma, if any, lies below index [INT_MAX]. *)
Definition splittable (l : string) : Prop :=
  string_size l ≤ SIZE_MAX ∧
  match index_of comma l with
  | Some i => Z.of_nat i < INT_MAX
  | None => True
  end.

(** The sum of the counts of a list of entries, and of a table. *)
Definition sum_counts (es : list (string * Z)) : Z :=
  foldr (λ e acc, e.2 + acc) 0 es.

Definition total (m : gmap string Z) : Z := sum_counts (map_to_list m).

(** The loop body applied to a list of lines in turn. *)
Fixpoint count_lines (ls : list string) (m : gmap string Z)
  : outcome (gmap string Z) :=
  match ls with
  | [] => Done m
  | l :: ls' => m' ← AddressFreq.count_line l m; count_lines ls' m'
  end.

(** The pieces of [s] between its delimiters [d]; there is always one. *)
Fixpoint segments (d : ascii) (s : string) : list string :=
  match s with
  | EmptyString => [EmptyString]
  | String a r =>
      if decide (a = d) then EmptyString :: segments d r
      else match segments d r with
           | x :: xs => String a x :: xs
           | [] => [String a EmptyString]
           end
  end.

(** [n] copies of the character [a]. *)
Fixpoint str_repeat (n : nat) (a : ascii) : string :=
  match n with
  | O => EmptyString
  | S n' => String a (str_repeat n' a)
  end.

(** [n] copies of the line [l], each ended by a newline. *)
Fixpoint repeat_line (n : nat) (l : string) : string :=
  match n with
  | O => EmptyString
  | S n' => l +:+ endl +:+ repeat_line n' l
  end.

(** A file system in which [content] is what the file at [path] holds. *)
Definition file (path content : string) : filesystem := {[ path := content ]}.

(** The state in which the loop condition finds the stream: at its end,
    or good. *)
Definition loop_ready (fin : ifstream) : Prop :=
  eofbit fin = false → good fin = true.

(** [address_map[k]++] for each key of a list in turn. *)
Fixpoint count_keys (ks : list string) (m : gmap string Z)
  : outcome (gmap string Z) :=
  match ks with
  | [] => Done m
  | k :: ks' => m' ← AddressFreq.increment m k; count_keys ks' m'
  end.

(** ** Sample inputs *)

(** A header and two records, the last line not ended by a newline. *)
Definition sample_unterminated : string :=
  "addr,count" +:+ endl +:+ "A,B" +:+ endl +:+ "A,C".

(** The same three lines, each ended by a newline. *)
Definition sample_terminated : string :=
  "addr,count" +:+ endl +:+ "A,B" +:+ endl +:+ "A,C" +:+ endl.

(** A record whose two fields are the same address. *)
Definition sample_twice : string :=
  "addr,count" +:+ endl +:+ "A,A" +:+ endl +:+ "A,C".

(** 2^30 records [A,A] after the header: a file of 4 GiB. *)
Definition many_pairs : string :=
  "addr,count" +:+ endl +:+ repeat_line (Z.to_nat 1073741824) "A,A".

(** 2^30 lines [A] after the header, none of them with a comma. *)
Definition many_singles : string :=
  "addr,count" +:+ endl +:+ repeat_line (Z.to_nat 1073741824) "A".

(** A record of 2^31 characters [x], a comma and [b]. *)
Definition giant_line : string :=
  str_repeat (Z.to_nat 2147483648) (ascii_of_nat 120) +:+ ",b".

(** A file whose only record is [giant_line]. *)
Definition giant_record : string := "addr,count" +:+ endl +:+ giant_line.

(** ** The lines of a text file, in the words of the specification *)

(** The specification speaks of "the data lines present in the file
    after the header".  A text is a sequence of lines, each ended by a
    newline; the last line may lack its newline, and a newline at the very
    end of the text does not start another line. *)
Definition spec_text_lines (content : string) : list string :=
  let pieces := segments newline content in
  match last pieces with
  | Some EmptyString => take (length pieces - 1) pieces
  | _ => pieces
  end.

Definition spec_data_lines (content : string) : list string :=
  tail (spec_text_lines content).

(** Two runs that cannot be told apart but for the order of the data
    rows: the same exit status, the same standard output and, after the
    header, the same rows up to their order; or the same failure. *)
Definition same_output (r1 r2 : outcome (list event * Z)) : Prop :=
  match r1, r2 with
  | Done (tr1, code1), Done (tr2, code2) =>
      code1 = code2 ∧ stdout_of tr1 = stdout_of tr2 ∧
      ∃ rows1 rows2,
        lines_to AddressFreq.out_path tr1 = AddressFreq.header :: rows1 ∧
        lines_to AddressFreq.out_path tr2 = AddressFreq.header :: rows2 ∧
        rows1 ≡ₚ rows2
  | OutOfRange, OutOfRange => True
  | SignedOverflow, SignedOverflow => True
  | OutOfFuel, OutOfFuel => True
  | _, _ => False
  end.



(** A contract list: a header and three records. *)
Definition sample_contracts : string :=
  "address,name" +:+ endl +:+ "0xc,Cat" +:+ endl +:+ "0xa,Ant" +:+ endl
  +:+ "0xc,Cow" +:+ endl +:+ "0xb,Bee".

(** The content of a file written line by line. *)
Definition written (lines : list string) : string :=
  foldr String.append EmptyString lines.

(** ** Vocabulary of the further properties *)


(** Every distinct key of [ks] once, with the number of its occurrences. *)
Definition tally (ks : list string) : list (string * Z) :=
  (λ a, (a, occurrences a ks)) <$> elements (list_to_set (C:=gset string) ks).

(** The records of [sample_unterminated] in another order, and the
    fields of one of them exchanged. *)
Definition sample_shuffled : string :=
  "first,second" +:+ endl +:+ "C,A" +:+ endl +:+ "A,B".

(** Lines put together again, with a newline between any two. *)
Fixpoint join_lines (ls : list string) : string :=
  match ls with
  | [] => EmptyString
  | [l] => l
  | l :: ls' => l +:+ endl +:+ join_lines ls'
  end.

(** The last character of a text, if it has one: an input "does not end
    with a newline" when this is not the newline character. *)
Fixpoint last_char (s : string) : option ascii :=
  match s with
  | EmptyString => None
  | String a EmptyString => Some a
  | String _ r => last_char r
  end.

(** ** Strings *)

Lemma string_size_nonneg s : 0 ≤ string_size s.
Proof. unfold string_size. lia. Qed.

Lemma string_size_cons a s : string_size (String a s) = string_size s + 1.
Proof. unfold string_size. simpl. lia. Qed.

Lemma string_length_app s t :
  String.length (s +:+ t) = (String.length s + String.length t)%nat.
Proof. induction s as [|a s IH]; simpl; [done | by rewrite IH]. Qed.

Lemma string_size_app s t : string_size (s +:+ t) = string_size s + string_size t.
Proof. unfold string_size. rewrite string_length_app. lia. Qed.

Lemma str_take_all n s : (String.length s ≤ n)%nat → str_take n s = s.
Proof.
  revert n. induction s as [|a s IH]; intros [|n] Hn; simpl in *; [done|done|lia|].
  f_equal. apply IH. lia.
Qed.

Lemma str_drop_length n s :
  String.length (str_drop n s) = (String.length s - n)%nat.
Proof.
  revert n. induction s as [|a s IH]; intros [|n]; simpl; auto.
Qed.

Lemma index_of_lt c s i : index_of c s = Some i → (i < String.length s)%nat.
Proof.
  revert i. induction s as [|a s IH]; intros i; simpl; [done|].
  case_decide; [intros [= <-]; lia|].
  destruct (index_of c s) as [j|]; simpl; [|done].
  intros [= <-]. specialize (IH j eq_refl). lia.
Qed.

Lemma index_of_split c s i :
  index_of c s = Some i → s = str_take i s +:+ String c (str_drop (S i) s).
Proof.
  revert i. induction s as [|a s IH]; intros i; simpl; [done|].
  case_decide as Hac; [intros [= <-]; by subst|].
  destruct (index_of c s) as [j|]; simpl; [|done].
  intros [= <-].
  change (String a s = String a (str_take j s +:+ String c (str_drop (S j) s))).
  f_equal. by apply IH.
Qed.

Lemma index_of_take c s i : index_of c s = Some i → index_of c (str_take i s) = None.
Proof.
  revert i. induction s as [|a s IH]; intros i; simpl; [done|].
  case_decide as Hac; [by intros [= <-]|].
  destruct (index_of c s) as [j|]; simpl; [|done].
  intros [= <-]. simpl. rewrite decide_False by done. by rewrite (IH j).
Qed.

(** ** substr at the arguments the programs pass *)

Lemma substr_prefix s n :
  0 ≤ n → substr s 0 n = Done (str_take (Z.to_nat n) s).
Proof.
  intros Hn. unfold substr. pose proof (string_size_nonneg s) as Hs.
  destruct (Z.ltb_spec (string_size s) 0) as [|_]; [lia|].
  f_equal. change (Z.to_nat 0) with O. destruct s as [|a s]; simpl str_drop.
  - by destruct (Z.to_nat _), (Z.to_nat n).
  - rewrite Z.sub_0_r. destruct (Z.le_ge_cases n (string_size (String a s))).
    + by rewrite Z.min_l.
    + rewrite Z.min_r by done. rewrite !str_take_all; [done| |];
        unfold string_size in *; lia.
Qed.

Lemma substr_whole s n : string_size s ≤ n → substr s 0 n = Done s.
Proof.
  intros Hn. pose proof (string_size_nonneg s).
  rewrite substr_prefix by lia. f_equal. apply str_take_all.
  unfold string_size in *. lia.
Qed.

Lemma substr_suffix s p n :
  0 ≤ p ≤ string_size s → string_size s - p ≤ n →
  substr s p n = Done (str_drop (Z.to_nat p) s).
Proof.
  intros Hp Hn. unfold substr.
  destruct (Z.ltb_spec (string_size s) p) as [|_]; [lia|].
  f_equal. apply str_take_all. rewrite str_drop_length.
  unfold string_size in *. lia.
Qed.

(** ** int and size_t at the values the programs compute *)

(** Side conditions on the range of [int] and [size_t]. *)
Ltac in_range := unfold INT_MIN, INT_MAX, SIZE_MAX in *; lia.

Lemma to_int_small z : INT_MIN ≤ z ≤ INT_MAX → to_int z = z.
Proof. unfold to_int, INT_MIN, INT_MAX. intros ?. rewrite Z.mod_small; lia. Qed.

Lemma to_int_npos : to_int npos = -1.
Proof. reflexivity. Qed.

Lemma to_size_t_small z : 0 ≤ z ≤ SIZE_MAX → to_size_t z = z.
Proof. unfold to_size_t, SIZE_MAX. intros ?. rewrite Z.mod_small; lia. Qed.

Lemma int_add_small a b :
  INT_MIN ≤ a + b ≤ INT_MAX → int_add a b = Done (a + b).
Proof.
  intros ?. unfold int_add. cbv zeta.
  destruct (Z.leb_spec INT_MIN (a + b)), (Z.leb_spec (a + b) INT_MAX); simpl; done || lia.
Qed.

(** ** The two fields the code extracts are the [columns] of the line *)

Lemma find_first_of_Some s c i :
  index_of c s = Some i → find_first_of s c = Z.of_nat i.
Proof. unfold find_first_of. by intros ->. Qed.

Lemma find_first_of_None s c : index_of c s = None → find_first_of s c = npos.
Proof. unfold find_first_of. by intros ->. Qed.

Lemma first_field s :
  string_size s ≤ SIZE_MAX →
  substr s 0 (find_first_of s comma) = Done (columns s).1.
Proof.
  intros Hs. unfold columns. destruct (index_of comma s) as [i|] eqn:Hi.
  - rewrite (find_first_of_Some _ _ _ Hi), substr_prefix by lia.
    by rewrite Nat2Z.id.
  - rewrite (find_first_of_None _ _ Hi). by apply substr_whole.
Qed.

Lemma first_field_int s :
  splittable s →
  substr s 0 (to_size_t (to_int (find_first_of s comma))) = Done (columns s).1.
Proof.
  intros [Hs Hi]. unfold columns. destruct (index_of comma s) as [i|] eqn:Heq.
  - rewrite (find_first_of_Some _ _ _ Heq).
    rewrite to_int_small by in_range.
    rewrite to_size_t_small by in_range.
    rewrite substr_prefix by lia. by rewrite Nat2Z.id.
  - rewrite (find_first_of_None _ _ Heq), to_int_npos.
    by apply substr_whole.
Qed.

Lemma second_field s :
  splittable s →
  let pos := to_int (find_first_of s comma) in
  int_add pos 1 ≫= (λ p1,
    substr s (to_size_t p1) (size_sub (size_sub (string_size s) (to_size_t pos)) 1))
  = Done (columns s).2.
Proof.
  intros [Hs Hi] pos. subst pos. unfold columns.
  pose proof (string_size_nonneg s) as Hs0.
  destruct (index_of comma s) as [i|] eqn:Heq.
  - pose proof (index_of_lt _ _ _ Heq) as Hlt.
    assert (Z.of_nat i < string_size s) by (unfold string_size; lia).
    rewrite (find_first_of_Some _ _ _ Heq).
    rewrite to_int_small by in_range.
    rewrite int_add_small by in_range. simpl.
    rewrite !to_size_t_small by in_range.
    unfold size_sub.
    rewrite (to_size_t_small (string_size s - Z.of_nat i))
      by in_range.
    rewrite to_size_t_small by in_range.
    rewrite substr_suffix by lia. f_equal. f_equal. lia.
  - rewrite (find_first_of_None _ _ Heq), to_int_npos.
    change (int_add (-1) 1) with (Done (A:=Z) 0). simpl.
    change (to_size_t 0) with 0.
    rewrite substr_suffix; [done|lia|].
    unfold size_sub, to_size_t, SIZE_MAX in *.
    change (-1 mod (18446744073709551615 + 1)) with 18446744073709551615.
    rewrite Zminus_mod_idemp_l.
    replace (string_size s - 18446744073709551615 - 1)
      with (string_size s + (-1) * (18446744073709551615 + 1)) by lia.
    rewrite Z.mod_add by lia. rewrite Z.mod_small; lia.
Qed.

Lemma count_line_columns s m :
  splittable s →
  AddressFreq.count_line s m =
    (m1 ← AddressFreq.increment m (columns s).1;
     AddressFreq.increment m1 (columns s).2).
Proof.
  intros Hs. unfold AddressFreq.count_line. cbv zeta.
  rewrite first_field_int by done. simpl.
  destruct (AddressFreq.increment m (columns s).1) as [m1| | |]; simpl; try done.
  pose proof (second_field s Hs) as H2. cbv zeta in H2.
  destruct (int_add _ 1) as [p1| | |]; simpl in *; try done.
  by rewrite H2.
Qed.

Lemma short_splittable s : string_size s ≤ INT_MAX → splittable s.
Proof.
  intros Hs. split; [in_range|].
  destruct (index_of comma s) as [i|] eqn:Hi; [|done].
  apply index_of_lt in Hi. unfold string_size in Hs. lia.
Qed.

(** ** The read loop *)

Lemma outcome_bind_assoc {A B C} (x : outcome A) (f : A → outcome B)
    (g : B → outcome C) :
  (x ≫= f) ≫= g = x ≫= (λ a, f a ≫= g).
Proof. by destruct x. Qed.

Lemma read_until_shorter d b line rest :
  read_until d b = (line, Some rest) → (String.length rest < String.length b)%nat.
Proof.
  revert line. induction b as [|a b IH]; intros line; simpl; [done|].
  case_decide; [intros [= _ <-]; lia|].
  destruct (read_until d b) as [l r] eqn:Hr. intros [= _ ->].
  specialize (IH l eq_refl). lia.
Qed.

Lemma read_until_segments d b :
  segments d b =
    match read_until d b with
    | (line, Some rest) => line :: segments d rest
    | (line, None) => [line]
    end.
Proof.
  induction b as [|a b IH]; simpl; [done|].
  case_decide; [done|]. rewrite IH.
  by destruct (read_until d b) as [l [r|]].
Qed.

Lemma getline_good fin s :
  good fin = true →
  getline fin s =
    match read_until newline (buf fin) with
    | (line, Some rest) => (Ifstream true rest false false, line)
    | (line, None) =>
        (Ifstream true EmptyString true (bool_decide (line = EmptyString)), line)
    end.
Proof.
  intros Hg. unfold getline. rewrite Hg.
  unfold good in Hg. destruct (is_open fin); [done|]. done.
Qed.

Lemma lines_read_segments fuel fin s :
  good fin = true → (String.length (buf fin) < fuel)%nat →
  lines_read fuel fin s = segments newline (buf fin).
Proof.
  revert fin s. induction fuel as [|fuel IH]; intros fin s Hg Hlen; [lia|].
  assert (eofbit fin = false) as Heof.
  { unfold good in Hg. by destruct (is_open fin), (eofbit fin). }
  simpl. unfold eof. rewrite Heof, (getline_good _ _ Hg), read_until_segments.
  destruct (read_until newline (buf fin)) as [line [rest|]] eqn:Hr.
  - f_equal. apply read_until_shorter in Hr.
    rewrite IH; [done|done|simpl; lia].
  - f_equal. by destruct fuel.
Qed.

Lemma processed_open path fs content :
  fs !! path = Some content →
  processed path fs =
    match read_until newline content with
    | (_, Some rest) => segments newline rest
    | (_, None) => []
    end.
Proof.
  intros Hfs. unfold processed, ifstream_open. rewrite Hfs. cbn -[lines_read getline].
  rewrite getline_good by done. cbn -[lines_read].
  destruct (read_until newline content) as [hd [rest|]]; cbn -[lines_read].
  - rewrite lines_read_segments; simpl; [done|done|lia].
  - done.
Qed.

Lemma processed_closed path fs : fs !! path = None → processed path fs = [].
Proof. intros Hfs. unfold processed, ifstream_open. by rewrite Hfs. Qed.

Lemma read_loop_lines fuel fin s m :
  loop_ready fin →
  (eofbit fin = false → (String.length (buf fin) < fuel)%nat) →
  (AddressFreq.read_loop fuel fin s m ≫= λ '(_, _, m'), Done m')
  = count_lines (lines_read fuel fin s) m.
Proof.
  revert fin s m. induction fuel as [|fuel IH]; intros fin s m Hready Hlen.
  - simpl. unfold eof. destruct (eofbit fin); [done|]. specialize (Hlen eq_refl). lia.
  - simpl. unfold eof. destruct (eofbit fin) eqn:Heof; [done|].
    specialize (Hready Heof). specialize (Hlen eq_refl).
    rewrite (getline_good _ _ Hready).
    destruct (read_until newline (buf fin)) as [line [rest|]] eqn:Hr; simpl.
    + rewrite outcome_bind_assoc.
      destruct (AddressFreq.count_line line m) as [m1| | |]; simpl; try done.
      apply IH; [done|]. intros _. simpl. apply read_until_shorter in Hr. lia.
    + rewrite outcome_bind_assoc.
      destruct (AddressFreq.count_line line m) as [m1| | |]; simpl; try done.
      apply IH; [done|]. done.
Qed.

Lemma read_input_lines fs :
  AddressFreq.read_input fs = count_lines (processed AddressFreq.in_path fs) ∅.
Proof.
  unfold AddressFreq.read_input, processed, ifstream_open.
  destruct (fs !! AddressFreq.in_path) as [content|];
    cbn -[lines_read AddressFreq.read_loop getline]; [|done].
  rewrite getline_good by done. cbn -[lines_read AddressFreq.read_loop].
  destruct (read_until newline content) as [hd [rest|]];
    cbn -[lines_read AddressFreq.read_loop].
  - rewrite <- read_loop_lines; [|done|simpl; lia].
    destruct (AddressFreq.read_loop _ _ _ _) as [[[? ?] ?]| | |]; done.
  - done.
Qed.

(** ** The frequency table *)

Lemma sum_counts_perm es es' : es ≡ₚ es' → sum_counts es = sum_counts es'.
Proof.
  unfold sum_counts. induction 1 as [|e es es' _ IH|e e' es|es es' es'' _ IH1 _ IH2];
    simpl; lia.
Qed.

Lemma total_empty : total ∅ = 0.
Proof. unfold total. by rewrite map_to_list_empty. Qed.

Lemma total_insert_fresh (m : gmap string Z) k c :
  m !! k = None → total (<[k := c]> m) = c + total m.
Proof.
  intros Hk. unfold total. by rewrite (sum_counts_perm _ _ (map_to_list_insert m k c Hk)).
Qed.

Lemma total_insert (m : gmap string Z) k c :
  total (<[k := c]> m) = total m - default 0 (m !! k) + c.
Proof.
  destruct (m !! k) as [c0|] eqn:Hk; simpl.
  - rewrite <- (insert_delete_eq m k c).
    rewrite <- (insert_delete_id m k c0 Hk) at 2.
    rewrite !total_insert_fresh by apply lookup_delete_eq. lia.
  - rewrite total_insert_fresh by done. lia.
Qed.

Lemma increment_Done m k :
  default 0 (m !! k) < INT_MAX → INT_MIN ≤ default 0 (m !! k) + 1 →
  AddressFreq.increment m k = Done (<[k := default 0 (m !! k) + 1]> m).
Proof.
  intros Hc Hc'. unfold AddressFreq.increment. rewrite int_add_small by lia. done.
Qed.

Lemma increment_total m k m' :
  AddressFreq.increment m k = Done m' → total m' = total m + 1.
Proof.
  unfold AddressFreq.increment, int_add. cbv zeta.
  destruct (_ && _); simpl; [|done]. intros [= <-]. rewrite total_insert. lia.
Qed.

(** ** Counting occurrences *)

Lemma occurrences_nil a : occurrences a [] = 0.
Proof. done. Qed.

Lemma occurrences_cons a k ks :
  occurrences a (k :: ks) = (if decide (a = k) then 1 else 0) + occurrences a ks.
Proof.
  unfold occurrences. rewrite filter_cons. case_decide; simpl; lia.
Qed.

Lemma occurrences_nonneg a ks : 0 ≤ occurrences a ks.
Proof. unfold occurrences. lia. Qed.

Lemma occurrences_le_length a ks : occurrences a ks ≤ Z.of_nat (length ks).
Proof. unfold occurrences. pose proof (length_filter (a =.) ks). lia. Qed.

Lemma occurrences_pos a ks : a ∈ ks ↔ 0 < occurrences a ks.
Proof.
  induction ks as [|k ks IH]; [rewrite occurrences_nil; split; [by intros ?%elem_of_nil|lia]|].
  rewrite occurrences_cons, elem_of_cons. pose proof (occurrences_nonneg a ks).
  case_decide; [split; [lia|auto]|]. rewrite IH. split; [intros [|]; [done|lia]|intros; right; lia].
Qed.

Lemma count_keys_app ks ks' m :
  count_keys (ks ++ ks') m = count_keys ks m ≫= count_keys ks'.
Proof.
  revert m. induction ks as [|k ks IH]; intros m; simpl; [done|].
  rewrite outcome_bind_assoc. destruct (AddressFreq.increment m k); simpl; auto.
Qed.

(** The table after counting the keys [ks] holds, for every address, the
    count it had plus its number of occurrences in [ks]. *)
Lemma count_keys_spec ks m :
  (∀ a v, m !! a = Some v → 0 ≤ v) →
  (∀ a, default 0 (m !! a) + occurrences a ks ≤ INT_MAX) →
  ∃ m', count_keys ks m = Done m' ∧
    ∀ a, m' !! a =
         if decide (occurrences a ks = 0) then m !! a
         else Some (default 0 (m !! a) + occurrences a ks).
Proof.
  revert m. induction ks as [|k ks IH]; intros m Hpos Hmax.
  - exists m. split; [done|]. intros a. by rewrite occurrences_nil.
  - assert (0 ≤ default 0 (m !! k)) as Hk0.
    { destruct (m !! k) as [v|] eqn:Hk; simpl; [by apply (Hpos k)|done]. }
    pose proof (Hmax k) as Hk. rewrite occurrences_cons, decide_True in Hk by done.
    pose proof (occurrences_nonneg k ks).
    simpl. rewrite increment_Done by in_range. simpl.
    destruct (IH (<[k := default 0 (m !! k) + 1]> m)) as (m' & Hrun & Hm').
    + intros a v. destruct (decide (k = a)) as [->|Hne].
      * rewrite lookup_insert_eq. intros [= <-]. lia.
      * rewrite lookup_insert_ne by done. apply Hpos.
    + intros a. destruct (decide (k = a)) as [->|Hne].
      * rewrite lookup_insert_eq. simpl. lia.
      * rewrite lookup_insert_ne by done. specialize (Hmax a).
        rewrite occurrences_cons, decide_False in Hmax by done. lia.
    + exists m'. split; [done|]. intros a. rewrite Hm', occurrences_cons.
      pose proof (occurrences_nonneg a ks).
      destruct (decide (a = k)) as [->|Hne].
      * rewrite lookup_insert_eq. simpl.
        rewrite (decide_False (P := 1 + _ = 0)) by lia.
        case_decide; f_equal; lia.
      * rewrite lookup_insert_ne by done. simpl. by rewrite Z.add_0_l.
Qed.

Lemma count_keys_total ks m m' :
  count_keys ks m = Done m' → total m' = total m + Z.of_nat (length ks).
Proof.
  revert m. induction ks as [|k ks IH]; intros m; simpl; [intros [= <-]; lia|].
  destruct (AddressFreq.increment m k) as [m1| | |] eqn:Hinc; simpl; try done.
  intros Hrun. rewrite (IH _ Hrun), (increment_total _ _ _ Hinc). lia.
Qed.

Lemma count_lines_keys ls m :
  Forall splittable ls → count_lines ls m = count_keys (addresses ls) m.
Proof.
  intros Hls. revert m. induction Hls as [|l ls Hl _ IH]; intros m; [done|].
  simpl. rewrite (count_line_columns _ _ Hl).
  destruct (AddressFreq.increment m (columns l).1) as [m1| | |]; simpl; try done.
  destruct (AddressFreq.increment m1 (columns l).2) as [m2| | |]; simpl; try done.
Qed.

(** Every completed pass of the loop adds 2 to the sum of the counts,
    whatever the line. *)
Lemma count_line_total s m m' :
  AddressFreq.count_line s m = Done m' → total m' = total m + 2.
Proof.
  unfold AddressFreq.count_line. cbv zeta.
  destruct (substr s 0 _) as [k1| | |]; simpl; try done.
  destruct (AddressFreq.increment m k1) as [m1| | |] eqn:H1; simpl; try done.
  destruct (int_add _ 1) as [p1| | |]; simpl; try done.
  destruct (substr s _ _) as [k2| | |]; simpl; try done.
  intros H2. rewrite (increment_total _ _ _ H2), (increment_total _ _ _ H1). lia.
Qed.



Lemma addresses_length ls : length (addresses ls) = (2 * length ls)%nat.
Proof. induction ls as [|l ls IH]; simpl in *; lia. Qed.

Lemma addresses_cons l ls :
  addresses (l :: ls) = (columns l).1 :: (columns l).2 :: addresses ls.
Proof. done. Qed.

Lemma addresses_app ls ls' : addresses (ls ++ ls') = addresses ls ++ addresses ls'.
Proof. induction ls as [|l ls IH]; [done|]. rewrite <- app_comm_cons, !addresses_cons, IH. done. Qed.

Lemma elem_of_addresses a ls :
  a ∈ addresses ls ↔ ∃ l, l ∈ ls ∧ (a = (columns l).1 ∨ a = (columns l).2).
Proof.
  unfold addresses. rewrite list_elem_of_bind. split.
  - intros (l & Ha & Hl). exists l. split; [done|].
    apply elem_of_cons in Ha as [->|Ha]; [by left|].
    apply list_elem_of_singleton in Ha as ->. by right.
  - intros (l & Hl & [->| ->]); exists l; (split; [|done]); set_solver.
Qed.

Lemma occurrences_addresses a ls :
  occurrences a (addresses ls) =
    occurrences a ((λ l, (columns l).1) <$> ls) +
    occurrences a ((λ l, (columns l).2) <$> ls).
Proof.
  induction ls as [|l ls IH]; [done|].
  rewrite addresses_cons, !fmap_cons, !occurrences_cons, IH. lia.
Qed.

(** What the reading part of the program leaves in the table, when the
    lines and the counts fit the integer types. *)
Lemma read_input_spec fs :
  let P := processed AddressFreq.in_path fs in
  Forall splittable P →
  (∀ a, occurrences a (addresses P) ≤ INT_MAX) →
  ∃ m, AddressFreq.read_input fs = Done m ∧
    (∀ a, m !! a = if decide (occurrences a (addresses P) = 0) then None
                   else Some (occurrences a (addresses P))) ∧
    total m = 2 * Z.of_nat (length P).
Proof.
  intros P Hsplit Hmax.
  destruct (count_keys_spec (addresses P) ∅) as (m & Hrun & Hm).
  - intros a v. by rewrite lookup_empty.
  - intros a. rewrite lookup_empty. simpl. apply Hmax.
  - exists m. rewrite read_input_lines. fold P. rewrite (count_lines_keys _ _ Hsplit).
    split; [done|]. split.
    + intros a. rewrite Hm, lookup_empty. simpl. done.
    + rewrite (count_keys_total _ _ _ Hrun), total_empty, addresses_length. lia.
Qed.

Lemma table_dom (m : gmap string Z) ks :
  (∀ a, m !! a = if decide (occurrences a ks = 0) then None
                 else Some (occurrences a ks)) →
  dom m = list_to_set ks.
Proof.
  intros Hm. apply set_eq. intros a.
  rewrite elem_of_dom, elem_of_list_to_set, occurrences_pos, Hm.
  pose proof (occurrences_nonneg a ks).
  case_decide; split; try lia; try by intros [? ?]. by intros _; eexists.
Qed.

Section table_order.
Context (iteration : gmap string Z → list (string * Z)).
Hypothesis iteration_order : map_order iteration.

Lemma map_order_length (m : gmap string Z) : length (iteration m) = size m.
Proof.
  rewrite (Permutation_length (iteration_order m)). by rewrite length_map_to_list.
Qed.

Lemma map_order_total (m : gmap string Z) : sum_counts (iteration m) = total m.
Proof. by apply sum_counts_perm. Qed.

Lemma map_order_empty : iteration ∅ = [].
Proof.
  apply Permutation_nil_r. rewrite (iteration_order ∅). by rewrite map_to_list_empty.
Qed.

Lemma map_order_rows (m : gmap string Z) rows :
  AddressFreq.row <$> map_to_list m ≡ₚ rows →
  AddressFreq.row <$> iteration m ≡ₚ rows.
Proof. intros <-. by rewrite (iteration_order m). Qed.

End table_order.

Lemma segments_nonempty d s : segments d s ≠ [].
Proof.
  destruct s as [|a s]; simpl; [done|].
  case_decide; [done|]. by destruct (segments d s).
Qed.

(** ** Inputs that do not end with a newline *)

Lemma last_char_cons a s :
  s ≠ EmptyString → last_char (String a s) = last_char s.
Proof. by destruct s. Qed.

Lemma segments_empty_last d s :
  last (segments d s) = Some EmptyString →
  s = EmptyString ∨ last_char s = Some d.
Proof.
  induction s as [|a s IH]; [by left|]. intros Hlast. right.
  pose proof (segments_nonempty d s) as Hne. simpl in Hlast.
  case_decide as Ha.
  - subst a. destruct (segments d s) as [|x xs] eqn:Hs; [done|].
    rewrite last_cons_cons in Hlast.
    destruct (IH Hlast) as [->|Hd]; [done|].
    rewrite last_char_cons; [done|]. by intros ->.
  - destruct (segments d s) as [|x xs] eqn:Hs; [done|].
    destruct xs as [|y ys]; [done|]. rewrite last_cons_cons in Hlast.
    rewrite <- (last_cons_cons x) in Hlast.
    destruct (IH Hlast) as [->|Hd]; [done|].
    rewrite last_char_cons; [done|]. by intros ->.
Qed.

(** On an input that does not end with a newline the loop processes the
    data lines of the file, no more and no less. *)
Lemma processed_data_lines path fs content :
  fs !! path = Some content →
  last_char content ≠ Some newline →
  processed path fs = spec_data_lines content.
Proof.
  intros Hfs Hlast. rewrite (processed_open _ _ _ Hfs).
  destruct content as [|a s]; [done|].
  unfold spec_data_lines, spec_text_lines. cbv zeta.
  assert (last (segments newline (String a s)) ≠ Some EmptyString) as Hne.
  { intros [?|?]%segments_empty_last; done. }
  assert (match last (segments newline (String a s)) with
          | Some EmptyString =>
              take (length (segments newline (String a s)) - 1)
                   (segments newline (String a s))
          | _ => segments newline (String a s)
          end = segments newline (String a s)) as ->.
  { destruct (last (segments newline (String a s))) as [[|? ?]|]; done. }
  rewrite (read_until_segments newline (String a s)).
  by destruct (read_until newline (String a s)) as [hd [rest|]].
Qed.

(** ** The address frequency counter *)

Lemma main_report iteration fs m :
  AddressFreq.read_input fs = Done m →
  AddressFreq.main iteration fs = Done (AddressFreq.report iteration m, 0).
Proof. intros Hm. unfold AddressFreq.main. by rewrite Hm. Qed.

Lemma lines_to_rows path (rows : list string) :
  lines_to path (Fout path <$> rows) = rows.
Proof.
  induction rows as [|r rows IH]; [done|]. rewrite fmap_cons.
  cbn [lines_to]. rewrite decide_True by done. by rewrite IH.
Qed.

Lemma report_lines iteration m :
  lines_to AddressFreq.out_path (AddressFreq.report iteration m)
  = AddressFreq.header :: (AddressFreq.row <$> iteration m).
Proof.
  unfold AddressFreq.report. cbn [lines_to]. rewrite decide_True by done. f_equal.
  rewrite <- (lines_to_rows AddressFreq.out_path (AddressFreq.row <$> iteration m)).
  f_equal. by rewrite <- list_fmap_compose.
Qed.

(** C1, amended.  For every input file that does not end with a newline,
    whose data lines each contain a comma, the first one below index
    2^31 - 1, and in which no address occurs more than 2^31 - 1 times: the
    loop processes the data lines of the file, the run completes, and it
    leaves a table in which every address of a data line is a key with a
    count of at least 1; the count of an address is the number of first
    fields plus the number of second fields equal to it (so a line whose
    two fields are the same address adds 2 to that one count); the counts
    of the table, and the counts of the rows written to the output file,
    sum to twice the number of data lines. *)
Theorem counts_cover_and_sum (fs : filesystem)
    (iteration : gmap string Z → list (string * Z)) (content : string) :
  map_order iteration →
  fs !! AddressFreq.in_path = Some content →
  last_char content ≠ Some newline →
  Forall (λ l, is_Some (index_of comma l)) (spec_data_lines content) →
  Forall splittable (spec_data_lines content) →
  (∀ a, occurrences a (addresses (spec_data_lines content)) ≤ INT_MAX) →
  ∃ m,
    AddressFreq.records fs = spec_data_lines content
    ∧ AddressFreq.read_input fs = Done m
    ∧ AddressFreq.main iteration fs = Done (AddressFreq.report iteration m, 0)
    ∧ (∀ l, l ∈ spec_data_lines content →
         ∃ c1 c2, m !! (columns l).1 = Some c1 ∧ 1 ≤ c1
                ∧ m !! (columns l).2 = Some c2 ∧ 1 ≤ c2)
    ∧ (∀ a, a ∈ addresses (spec_data_lines content) →
         m !! a =
           Some (occurrences a ((λ l, (columns l).1) <$> spec_data_lines content)
               + occurrences a ((λ l, (columns l).2) <$> spec_data_lines content)))
    ∧ total m = 2 * Z.of_nat (length (spec_data_lines content))
    ∧ lines_to AddressFreq.out_path (AddressFreq.report iteration m)
      = AddressFreq.header :: (AddressFreq.row <$> iteration m)
    ∧ sum_counts (iteration m) = 2 * Z.of_nat (length (spec_data_lines content)).
Proof.
  intros Hit Hfs Hlast _ Hsplit Hmax.
  pose proof (processed_data_lines _ _ _ Hfs Hlast) as Hrec.
  rewrite <- Hrec in *.
  destruct (read_input_spec fs Hsplit Hmax) as (m & Hrun & Hm & Htotal).
  assert (∀ a, a ∈ addresses (processed AddressFreq.in_path fs) →
            m !! a = Some (occurrences a (addresses (processed AddressFreq.in_path fs)))
            ∧ 1 ≤ occurrences a (addresses (processed AddressFreq.in_path fs)))
    as Hkey.
  { intros a Ha%occurrences_pos. rewrite Hm. rewrite decide_False by lia.
    split; [done|lia]. }
  exists m. split_and!; try done.
  - by apply main_report.
  - intros l Hl.
    destruct (Hkey (columns l).1) as [H1 ?]; [apply elem_of_addresses; eauto|].
    destruct (Hkey (columns l).2) as [H2 ?]; [apply elem_of_addresses; eauto|].
    eauto 10.
  - intros a Ha. destruct (Hkey a Ha) as [-> _]. by rewrite occurrences_addresses.
  - apply report_lines.
  - by rewrite map_order_total.
Qed.

Lemma counts_cover_and_sum_witness :
  ∃ m,
    AddressFreq.read_input (file AddressFreq.in_path sample_twice) = Done m
    ∧ m !! "A" = Some 3
    ∧ total m = 4.
Proof.
  destruct (counts_cover_and_sum (file AddressFreq.in_path sample_twice)
              map_to_list sample_twice)
    as (m & _ & Hrun & _ & _ & Hcount & Htotal & _).
  - intros m. reflexivity.
  - reflexivity.
  - by vm_compute.
  - change (spec_data_lines sample_twice) with ["A,A"; "A,C"].
    repeat constructor; by eexists.
  - change (spec_data_lines sample_twice) with ["A,A"; "A,C"].
    repeat constructor; apply short_splittable; by vm_compute.
  - intros a. etrans; [apply occurrences_le_length|]. by vm_compute.
  - exists m. split; [exact Hrun|]. split; [|exact Htotal].
    rewrite Hcount.
    + reflexivity.
    + change (spec_data_lines sample_twice) with ["A,A"; "A,C"].
      apply elem_of_addresses. exists "A,A". split; [left|left; reflexivity].
Defined.

(** C4, amended.  For every two-field input that does not end with a
    newline, whose data lines each contain a comma, the first one below
    index 2^31 - 1, and in which no address occurs more than 2^31 - 1
    times, the run first prints the number of distinct addresses of the
    two columns of the data lines to standard output, then creates the
    output file and writes the header and exactly that many data rows. *)
Theorem rows_match_distinct_addresses (fs : filesystem)
    (iteration : gmap string Z → list (string * Z)) (content : string) :
  map_order iteration →
  fs !! AddressFreq.in_path = Some content →
  last_char content ≠ Some newline →
  Forall (λ l, is_Some (index_of comma l)) (spec_data_lines content) →
  Forall splittable (spec_data_lines content) →
  (∀ a, occurrences a (addresses (spec_data_lines content)) ≤ INT_MAX) →
  ∃ rows,
    AddressFreq.main iteration fs =
      Done (Cout (pretty (size (list_to_set (C:=gset string)
                                 (addresses (spec_data_lines content)))) +:+ endl)
            :: Create AddressFreq.out_path
            :: Fout AddressFreq.out_path AddressFreq.header
            :: (Fout AddressFreq.out_path <$> rows), 0)
    ∧ length rows =
        size (list_to_set (C:=gset string) (addresses (spec_data_lines content))).
Proof.
  intros Hit Hfs Hlast _ Hsplit Hmax.
  pose proof (processed_data_lines _ _ _ Hfs Hlast) as Hrec.
  rewrite <- Hrec in *.
  destruct (read_input_spec fs Hsplit Hmax) as (m & Hrun & Hm & _).
  apply table_dom in Hm. rewrite <- Hm, size_dom.
  exists (AddressFreq.row <$> iteration m). split.
  - rewrite (main_report _ _ _ Hrun). unfold AddressFreq.report.
    by rewrite <- list_fmap_compose.
  - rewrite length_fmap. by apply map_order_length.
Qed.

Lemma rows_match_distinct_addresses_witness :
  ∃ rows,
    AddressFreq.main map_to_list (file AddressFreq.in_path sample_unterminated) =
      Done (Cout ("3" +:+ endl)
            :: Create AddressFreq.out_path
            :: Fout AddressFreq.out_path AddressFreq.header
            :: (Fout AddressFreq.out_path <$> rows), 0)
    ∧ length rows = 3%nat.
Proof.
  apply (rows_match_distinct_addresses
           (file AddressFreq.in_path sample_unterminated) map_to_list
           sample_unterminated).
  - intros m. reflexivity.
  - reflexivity.
  - by vm_compute.
  - change (spec_data_lines sample_unterminated) with ["A,B"; "A,C"].
    repeat constructor; by eexists.
  - change (spec_data_lines sample_unterminated) with ["A,B"; "A,C"].
    repeat constructor; apply short_splittable; by vm_compute.
  - intros a. etrans; [apply occurrences_le_length|]. by vm_compute.
Defined.

(** ** Inputs beyond the range of the integer types *)

Lemma str_repeat_length n a : String.length (str_repeat n a) = n.
Proof. induction n as [|n IH]; simpl; [done | by rewrite IH]. Qed.

Lemma index_of_str_repeat c n a : a ≠ c → index_of c (str_repeat n a) = None.
Proof.
  intros Hne. induction n as [|n IH]; simpl; [done|].
  rewrite decide_False by done. by rewrite IH.
Qed.

Lemma index_of_app_None c s t :
  index_of c s = None →
  index_of c (s +:+ t) = (λ i, String.length s + i)%nat <$> index_of c t.
Proof.
  induction s as [|a s IH]; simpl.
  - intros _. change ("" +:+ t) with t. by destruct (index_of c t).
  - case_decide; [done|]. destruct (index_of c s) eqn:Hs; [done|]. intros _.
    rewrite IH by done. by destruct (index_of c t).
Qed.

Lemma index_of_app_None_None c s t :
  index_of c s = None → index_of c t = None → index_of c (s +:+ t) = None.
Proof. intros Hs Ht. rewrite index_of_app_None by done. by rewrite Ht. Qed.

Lemma read_until_line d s r :
  index_of d s = None → read_until d (s +:+ String d r) = (s, Some r).
Proof.
  induction s as [|a s IH]; simpl.
  - intros _. change (read_until d (String d r) = ("", Some r)).
    simpl. by rewrite decide_True.
  - case_decide; [done|]. destruct (index_of d s) eqn:Hs; [done|]. intros _.
    by rewrite IH.
Qed.

Lemma segments_one d s : index_of d s = None → segments d s = [s].
Proof.
  induction s as [|a s IH]; simpl; [done|].
  case_decide; [done|]. destruct (index_of d s) eqn:Hs; [done|]. intros _.
  by rewrite IH.
Qed.

Lemma segments_line d s r :
  index_of d s = None → segments d (s +:+ String d r) = s :: segments d r.
Proof.
  intros Hs. by rewrite read_until_segments, read_until_line.
Qed.

Lemma segments_repeat_line n l :
  index_of newline l = None →
  segments newline (repeat_line n l) = replicate n l ++ [EmptyString].
Proof.
  intros Hl. induction n as [|n IH]; [done|].
  change (repeat_line (S n) l) with (l +:+ String newline (repeat_line n l)).
  rewrite segments_line by done. by rewrite IH.
Qed.

Lemma processed_file path hd rest :
  index_of newline hd = None →
  processed path (file path (hd +:+ endl +:+ rest)) = segments newline rest.
Proof.
  intros Hhd. rewrite (processed_open _ _ (hd +:+ endl +:+ rest))
    by apply lookup_singleton_eq.
  change (hd +:+ endl +:+ rest) with (hd +:+ String newline rest).
  by rewrite read_until_line.
Qed.

Lemma addresses_replicate n l a :
  columns l = (a, a) → addresses (replicate n l) = replicate (n + n) a.
Proof.
  intros Hl. induction n as [|n IH]; [done|].
  rewrite replicate_S, addresses_cons, IH, Hl.
  by rewrite Nat.add_succ_r.
Qed.

Lemma occurrences_replicate a b n :
  occurrences a (replicate n b) = if decide (a = b) then Z.of_nat n else 0.
Proof.
  induction n as [|n IH]; [by case_decide|].
  rewrite replicate_S, occurrences_cons, IH. case_decide; lia.
Qed.

(** One more increment of an address that already occurred [INT_MAX]
    times leaves the range of [int]. *)
Lemma count_keys_overflow ks a ks' :
  occurrences a ks = INT_MAX →
  (∀ b, occurrences b ks ≤ INT_MAX) →
  count_keys (ks ++ a :: ks') ∅ = SignedOverflow.
Proof.
  intros Ha Hmax. rewrite count_keys_app.
  destruct (count_keys_spec ks ∅) as (m & -> & Hm).
  - intros b v. by rewrite lookup_empty.
  - intros b. rewrite lookup_empty. apply Hmax.
  - simpl. unfold AddressFreq.increment.
    by rewrite Hm, Ha, lookup_empty.
Qed.

(** A file of 2^30 copies of a line whose two fields are the same
    address: the second increment of the last copy overflows. *)
Lemma read_input_overflow hd l a n :
  index_of newline hd = None → index_of newline l = None →
  splittable l → columns l = (a, a) →
  Z.of_nat n = 1073741824 →
  AddressFreq.read_input (file AddressFreq.in_path (hd +:+ endl +:+ repeat_line n l))
  = SignedOverflow.
Proof.
  intros Hhd Hl Hsplit Hcol Hn.
  rewrite read_input_lines, processed_file, segments_repeat_line by done.
  rewrite count_lines_keys.
  2:{ apply Forall_app. split; [by apply Forall_replicate|].
      repeat constructor; apply short_splittable; by vm_compute. }
  rewrite addresses_app, (addresses_replicate _ _ _ Hcol).
  destruct (n + n)%nat as [|j] eqn:Hj; [lia|].
  rewrite replicate_S_end, <- app_assoc. simpl.
  apply count_keys_overflow.
  - rewrite occurrences_replicate, decide_True by done. unfold INT_MAX. lia.
  - intros b. rewrite occurrences_replicate. unfold INT_MAX. case_decide; lia.
Qed.

(** A line whose first comma stands at index 2^31: the position read
    back from the [int] is negative. *)
Lemma giant_line_comma n x r :
  x ≠ comma → index_of comma (str_repeat n x +:+ String comma r) = Some n.
Proof.
  intros Hx. rewrite index_of_app_None by (by apply index_of_str_repeat).
  cbn [index_of]. rewrite decide_True by done. cbn [fmap option_fmap option_map].
  rewrite str_repeat_length. f_equal. lia.
Qed.

Lemma giant_line_second_field n s :
  index_of comma s = Some n → Z.of_nat n = 2147483648 →
  string_size s ≤ 4294967296 →
  let pos := to_int (find_first_of s comma) in
  int_add pos 1 ≫= (λ p1,
    substr s (to_size_t p1) (size_sub (size_sub (string_size s) (to_size_t pos)) 1))
  = OutOfRange.
Proof.
  intros Hi Hn Hs pos. subst pos.
  rewrite (find_first_of_Some _ _ _ Hi), Hn.
  change (to_int 2147483648) with (-2147483648).
  change (int_add (-2147483648) 1) with (Done (A:=Z) (-2147483647)). simpl.
  change (to_size_t (-2147483647)) with 18446744071562067969.
  unfold substr.
  destruct (Z.ltb_spec (string_size s) 18446744071562067969) as [_|?]; [done|lia].
Qed.

Lemma main_overflow iteration fs :
  AddressFreq.read_input fs = SignedOverflow →
  AddressFreq.main iteration fs = SignedOverflow.
Proof. intros Hrun. unfold AddressFreq.main. by rewrite Hrun. Qed.

Lemma increment_fresh m k :
  m !! k = None → AddressFreq.increment m k = Done (<[k := 1]> m).
Proof. intros Hk. unfold AddressFreq.increment. by rewrite Hk. Qed.

(** A file whose only record has its first comma at index 2^31: the
    second [substr] throws. *)
Lemma read_input_out_of_range hd n x r :
  index_of newline hd = None →
  index_of newline (str_repeat n x +:+ String comma r) = None →
  x ≠ comma → Z.of_nat n = 2147483648 → string_size r ≤ 2147483647 →
  AddressFreq.read_input
    (file AddressFreq.in_path (hd +:+ endl +:+ str_repeat n x +:+ String comma r))
  = OutOfRange.
Proof.
  intros Hhd Hnl Hx Hn Hr.
  rewrite read_input_lines, processed_file, segments_one by done.
  set (s := str_repeat n x +:+ String comma r).
  assert (string_size s = 2147483648 + (1 + string_size r)) as Hsize.
  { unfold s. rewrite string_size_app, string_size_cons.
    unfold string_size at 1. rewrite str_repeat_length. lia. }
  pose proof (string_size_nonneg r).
  pose proof (giant_line_comma n x r Hx) as Hi. fold s in Hi.
  pose proof (giant_line_second_field n s Hi Hn) as Hsecond.
  cbv zeta in Hsecond.
  cbn [count_lines]. unfold AddressFreq.count_line. cbv zeta.
  rewrite (find_first_of_Some _ _ _ Hi), Hn in *.
  change (to_size_t (to_int 2147483648)) with 18446744071562067968 in *.
  rewrite substr_whole by lia. cbn [mbind outcome_bind].
  rewrite increment_fresh by apply lookup_empty. cbn [mbind outcome_bind].
  destruct (int_add (to_int 2147483648) 1) as [p1| | |]; cbn [mbind outcome_bind].
  - cbn [mbind outcome_bind] in Hsecond. rewrite Hsecond by lia. done.
  - done.
  - by specialize (Hsecond ltac:(lia)).
  - by specialize (Hsecond ltac:(lia)).
Qed.

Lemma giant_record_out_of_range :
  AddressFreq.read_input (file AddressFreq.in_path giant_record) = OutOfRange.
Proof.
  unfold giant_record, giant_line. change ",b" with (String comma "b").
  apply read_input_out_of_range; [done| |done| |by vm_compute].
  - apply index_of_app_None_None; [by apply index_of_str_repeat|done].
  - apply Z2Nat.id. lia.
Qed.

Lemma many_pairs_overflow :
  AddressFreq.read_input (file AddressFreq.in_path many_pairs) = SignedOverflow.
Proof.
  unfold many_pairs. apply (read_input_overflow "addr,count" "A,A" "A").
  - reflexivity.
  - reflexivity.
  - apply short_splittable. by vm_compute.
  - reflexivity.
  - apply Z2Nat.id. lia.
Qed.

(** C1 as stated fails.  On a well-formed file of 2^30 records [A,A] the
    count of [A] would have to reach 2^31: the run ends in signed overflow
    instead of a table.  On a well-formed file whose one record has its
    comma at index 2^31 the run is ended by std::out_of_range. *)
Lemma counts_cover_and_sum_counterexample :
  AddressFreq.read_input (file AddressFreq.in_path many_pairs) = SignedOverflow
  ∧ AddressFreq.main map_to_list (file AddressFreq.in_path many_pairs)
    = SignedOverflow
  ∧ AddressFreq.read_input (file AddressFreq.in_path giant_record) = OutOfRange.
Proof.
  split_and!.
  - apply many_pairs_overflow.
  - apply main_overflow, many_pairs_overflow.
  - apply giant_record_out_of_range.
Qed.

(** C4 as stated fails.  For a two-field record of 2^31 characters [x],
    a comma and [b], the position of the comma does not fit the [int] it
    is stored in: the program is ended by std::out_of_range, and prints
    and writes nothing.  The input does not end with a newline. *)
Lemma rows_match_distinct_addresses_counterexample :
  AddressFreq.main map_to_list (file AddressFreq.in_path giant_record)
  = OutOfRange.
Proof. unfold AddressFreq.main. by rewrite giant_record_out_of_range. Qed.

(** ** The line splitter *)

Lemma get_first_address_columns s :
  string_size s ≤ SIZE_MAX → AddressFreq.get_first_address s = Done (columns s).1.
Proof. apply first_field. Qed.

Lemma get_second_address_columns s :
  splittable s → AddressFreq.get_second_address s = Done (columns s).2.
Proof. intros Hs. apply (second_field s Hs). Qed.

(** C5, amended.  For every line whose first comma stands at an index [i]
    below 2^31 - 1, [get_first_address] returns the text before that
    comma and [get_second_address] all the text after it; the text before
    it holds no comma, and first field, comma and second field put
    together give the line again.  The statements of [main] that split a
    line in place count these same two fields. *)
Theorem splitter_fields (s : string) (i : nat) :
  index_of comma s = Some i →
  Z.of_nat i < INT_MAX →
  string_size s ≤ SIZE_MAX →
  AddressFreq.get_first_address s = Done (str_take i s)
  ∧ AddressFreq.get_second_address s = Done (str_drop (S i) s)
  ∧ index_of comma (str_take i s) = None
  ∧ str_take i s +:+ String comma (str_drop (S i) s) = s
  ∧ ∀ m, AddressFreq.count_line s m =
           (m1 ← AddressFreq.increment m (str_take i s);
            AddressFreq.increment m1 (str_drop (S i) s)).
Proof.
  intros Hi Hlt Hsize.
  assert (splittable s) as Hs by (split; [done | by rewrite Hi]).
  assert (columns s = (str_take i s, str_drop (S i) s)) as Hcol
    by (unfold columns; by rewrite Hi).
  split_and!.
  - rewrite get_first_address_columns by done. by rewrite Hcol.
  - rewrite get_second_address_columns by done. by rewrite Hcol.
  - by apply index_of_take.
  - symmetry. by apply index_of_split.
  - intros m. rewrite count_line_columns by done. by rewrite Hcol.
Qed.

Lemma splitter_fields_witness :
  AddressFreq.get_first_address "0xa1,0xb2,x" = Done "0xa1"
  ∧ AddressFreq.get_second_address "0xa1,0xb2,x" = Done "0xb2,x".
Proof.
  destruct (splitter_fields "0xa1,0xb2,x" 4) as (H1 & H2 & _).
  - reflexivity.
  - by vm_compute.
  - by vm_compute.
  - split; [exact H1 | exact H2].
Defined.

(** C5 as stated fails: in a line of 2^31 characters [x], a comma and
    [b], the comma is at an index that the [int] of [get_second_address]
    reads back as -2^31, and the call throws instead of returning [b]. *)
Lemma splitter_fields_counterexample :
  index_of comma giant_line = Some (Z.to_nat 2147483648)
  ∧ AddressFreq.get_second_address giant_line = OutOfRange.
Proof.
  assert (index_of comma giant_line = Some (Z.to_nat 2147483648)) as Hi.
  { unfold giant_line. change ",b" with (String comma "b").
    by apply giant_line_comma. }
  split; [exact Hi|].
  apply (giant_line_second_field _ _ Hi).
  - apply Z2Nat.id. lia.
  - unfold giant_line. rewrite string_size_app. unfold string_size.
    rewrite str_repeat_length. change (String.length ",b") with 2%nat. lia.
Qed.

(** ** Lines without a comma *)

(** C9, amended.  For a line without a comma [find_first_of] yields
    [npos], which the [int] holds as -1; both [substr] calls of the loop
    body then return the whole line without throwing, and so do
    [get_first_address] and [get_second_address].  The loop body adds 2 to
    the count of the key that is the whole line and changes no other
    entry, provided that count was at most [INT_MAX - 2] before. *)
Theorem line_without_comma (s : string) (m : gmap string Z) :
  index_of comma s = None →
  string_size s ≤ SIZE_MAX →
  to_int (find_first_of s comma) = -1
  ∧ substr s 0 (to_size_t (to_int (find_first_of s comma))) = Done s
  ∧ substr s (to_size_t (to_int (find_first_of s comma) + 1))
           (size_sub (size_sub (string_size s)
                               (to_size_t (to_int (find_first_of s comma)))) 1)
    = Done s
  ∧ AddressFreq.get_first_address s = Done s
  ∧ AddressFreq.get_second_address s = Done s
  ∧ (0 ≤ default 0 (m !! s) → default 0 (m !! s) + 2 ≤ INT_MAX →
     AddressFreq.count_line s m = Done (<[s := default 0 (m !! s) + 2]> m)).
Proof.
  intros Hi Hsize. set (pos := to_int (find_first_of s comma)).
  assert (splittable s) as Hs by (split; [done | by rewrite Hi]).
  assert (columns s = (s, s)) as Hcol by (unfold columns; by rewrite Hi).
  assert (pos = -1) as Hpos.
  { unfold pos. by rewrite (find_first_of_None _ _ Hi). }
  pose proof (second_field s Hs) as H2. cbv zeta in H2. fold pos in H2.
  rewrite Hcol, Hpos in H2. change (int_add (-1) 1) with (Done (A:=Z) 0) in H2.
  cbn [mbind outcome_bind] in H2.
  pose proof (first_field_int s Hs) as H1. fold pos in H1. rewrite Hcol, Hpos in H1.
  rewrite Hpos. split_and!; try done.
  - rewrite get_first_address_columns by done. by rewrite Hcol.
  - rewrite get_second_address_columns by done. by rewrite Hcol.
  - intros Hc0 Hc2. rewrite count_line_columns by done. rewrite Hcol. simpl.
    rewrite increment_Done by in_range. cbn [mbind outcome_bind].
    rewrite increment_Done; rewrite lookup_insert_eq; simpl;
      [|lia|unfold INT_MIN; lia].
    rewrite insert_insert_eq. do 2 f_equal. lia.
Qed.

Lemma line_without_comma_witness :
  AddressFreq.get_second_address "0xa1" = Done "0xa1"
  ∧ AddressFreq.count_line "0xa1" {[ "0xa1" := 5 ]} = Done {[ "0xa1" := 7 ]}.
Proof.
  destruct (line_without_comma "0xa1" {[ "0xa1" := 5 ]})
    as (_ & _ & _ & _ & H2 & Hcount).
  - reflexivity.
  - by vm_compute.
  - split; [exact H2|]. rewrite Hcount.
    + reflexivity.
    + by vm_compute.
    + by vm_compute.
Defined.

(** C9 as stated fails: in a file of 2^30 lines [A] no processed line
    has a comma, and the second increment of the last [A] leaves the range
    of [int]: the count is not incremented by 2, the run is undefined. *)
Lemma line_without_comma_counterexample :
  Forall (λ l, index_of comma l = None)
         (AddressFreq.records (file AddressFreq.in_path many_singles))
  ∧ AddressFreq.main map_to_list (file AddressFreq.in_path many_singles)
    = SignedOverflow.
Proof.
  split.
  - unfold AddressFreq.records, many_singles.
    rewrite processed_file, segments_repeat_line by done.
    apply Forall_app. split; [by apply Forall_replicate|]. by repeat constructor.
  - apply main_overflow. unfold many_singles.
    apply (read_input_overflow "addr,count" "A" "A").
    + reflexivity.
    + reflexivity.
    + apply short_splittable. by vm_compute.
    + reflexivity.
    + apply Z2Nat.id. lia.
Qed.

(** ** The end-of-file test of the read loop *)

Lemma segments_snoc d s :
  segments d (s +:+ String d EmptyString) = segments d s ++ [EmptyString].
Proof.
  induction s as [|a s IH].
  - change (segments d (String d "") = [""; ""]). simpl. by rewrite decide_True.
  - change (String a s +:+ String d "") with (String a (s +:+ String d "")).
    simpl. case_decide; [by rewrite IH|]. rewrite IH.
    pose proof (segments_nonempty d s). by destruct (segments d s).
Qed.

(** A newline at the end of the input makes the loop run once more, on
    an empty line. *)
Lemma records_newline_at_end hd body :
  index_of newline hd = None →
  AddressFreq.records (file AddressFreq.in_path (hd +:+ endl +:+ body +:+ endl))
  = segments newline body ++ [EmptyString].
Proof.
  intros Hhd. unfold AddressFreq.records.
  rewrite processed_file by done. apply segments_snoc.
Qed.

(** C2 fails on the code.  On the header and the one record [A,B], each
    ended by a newline, the loop makes two passes where the file has one
    data line: [eof()] is still false after the last line was read, the
    next [getline] extracts nothing, and the empty string it leaves in [s]
    is counted twice. *)
Theorem eof_test_spurious_record :
  spec_data_lines ("addr,count" +:+ endl +:+ "A,B" +:+ endl) = ["A,B"]
  ∧ AddressFreq.records
      (file AddressFreq.in_path ("addr,count" +:+ endl +:+ "A,B" +:+ endl))
    = ["A,B"; ""]
  ∧ AddressFreq.read_input
      (file AddressFreq.in_path ("addr,count" +:+ endl +:+ "A,B" +:+ endl))
    = Done {[ "A" := 1; "B" := 1; "" := 2 ]}.
Proof. split_and!; by vm_compute. Qed.

(** C3 on the code.  When the last of the three lines has no newline
    after it, the data rows are [A,2], [B,1] and [C,1] in the order of the
    table.  When every line is ended by a newline, the same three rows
    come with a fourth one, an empty address with the count 2: the loop
    of C2 at work. *)
Theorem sample_output (iteration : gmap string Z → list (string * Z)) :
  map_order iteration →
  (∃ rows,
     AddressFreq.main iteration (file AddressFreq.in_path sample_unterminated)
     = Done (Cout ("3" +:+ endl) :: Create AddressFreq.out_path
             :: Fout AddressFreq.out_path AddressFreq.header
             :: (Fout AddressFreq.out_path <$> rows), 0)
     ∧ rows ≡ₚ ["A,2" +:+ endl; "B,1" +:+ endl; "C,1" +:+ endl])
  ∧ (∃ rows,
     AddressFreq.main iteration (file AddressFreq.in_path sample_terminated)
     = Done (Cout ("4" +:+ endl) :: Create AddressFreq.out_path
             :: Fout AddressFreq.out_path AddressFreq.header
             :: (Fout AddressFreq.out_path <$> rows), 0)
     ∧ rows ≡ₚ ["A,2" +:+ endl; "B,1" +:+ endl; "C,1" +:+ endl; ",2" +:+ endl]).
Proof.
  intros Hit. split.
  - exists (AddressFreq.row <$> iteration {[ "A" := 2; "B" := 1; "C" := 1 ]}). split.
    + rewrite (main_report _ _ {[ "A" := 2; "B" := 1; "C" := 1 ]}) by (vm_compute; reflexivity).
      unfold AddressFreq.report. rewrite <- list_fmap_compose. done.
    + apply map_order_rows; [done|]. apply (bool_decide_unpack _). by vm_compute.
  - exists (AddressFreq.row <$> iteration {[ "A" := 2; "B" := 1; "C" := 1; "" := 2 ]}).
    split.
    + rewrite (main_report _ _ {[ "A" := 2; "B" := 1; "C" := 1; "" := 2 ]})
        by (vm_compute; reflexivity).
      unfold AddressFreq.report. rewrite <- list_fmap_compose. done.
    + apply map_order_rows; [done|]. apply (bool_decide_unpack _). by vm_compute.
Qed.

Lemma sample_output_witness :
  ∃ rows,
    AddressFreq.main map_to_list (file AddressFreq.in_path sample_terminated)
    = Done (Cout ("4" +:+ endl) :: Create AddressFreq.out_path
            :: Fout AddressFreq.out_path AddressFreq.header
            :: (Fout AddressFreq.out_path <$> rows), 0)
    ∧ rows ≡ₚ ["A,2" +:+ endl; "B,1" +:+ endl; "C,1" +:+ endl; ",2" +:+ endl].
Proof.
  apply (sample_output map_to_list). intros m. reflexivity.
Defined.

(** ** The loop bound of the model is never reached *)

Lemma count_lines_fuel ls m : count_lines ls m ≠ OutOfFuel.
Proof.
  revert m. induction ls as [|l ls IH]; intros m; simpl; [done|].
  unfold AddressFreq.count_line at 1, AddressFreq.increment, int_add, substr.
  cbv zeta. repeat (case_match; simpl; try done).
Qed.

Lemma main_fuel iteration fs : AddressFreq.main iteration fs ≠ OutOfFuel.
Proof.
  unfold AddressFreq.main. rewrite read_input_lines.
  pose proof (count_lines_fuel (processed AddressFreq.in_path fs) ∅).
  by destruct (count_lines _ _).
Qed.

(** ** An input file that cannot be opened *)

Lemma read_input_closed fs :
  fs !! AddressFreq.in_path = None → AddressFreq.read_input fs = Done ∅.
Proof.
  intros Hfs. unfold AddressFreq.read_input, ifstream_open. by rewrite Hfs.
Qed.

Lemma report_empty iteration :
  map_order iteration →
  AddressFreq.report iteration ∅ =
    [Cout ("0" +:+ endl); Create AddressFreq.out_path;
     Fout AddressFreq.out_path AddressFreq.header].
Proof.
  intros Hit. unfold AddressFreq.report. by rewrite map_order_empty.
Qed.



(** C10.  When the input file cannot be opened the run prints [0],
    creates the output file, writes the header line and nothing else, and
    exits with status 0.  The output file then holds the header alone,
    whatever it held before, and no other file is touched.  A run on an
    input file that exists and is empty does exactly the same. *)
Theorem unopened_input_like_empty (fs : filesystem)
    (iteration : gmap string Z → list (string * Z)) :
  fs !! AddressFreq.in_path = None →
  map_order iteration →
  AddressFreq.main iteration fs
  = Done ([Cout ("0" +:+ endl); Create AddressFreq.out_path;
           Fout AddressFreq.out_path ("address,count" +:+ endl)], 0)
  ∧ fs_after fs [Cout ("0" +:+ endl); Create AddressFreq.out_path;
                 Fout AddressFreq.out_path ("address,count" +:+ endl)]
    = <[AddressFreq.out_path := "address,count" +:+ endl]> fs
  ∧ AddressFreq.main iteration (<[AddressFreq.in_path := EmptyString]> fs)
    = AddressFreq.main iteration fs.
Proof.
  intros Hfs Hit.
  assert (AddressFreq.main iteration fs
          = Done ([Cout ("0" +:+ endl); Create AddressFreq.out_path;
                   Fout AddressFreq.out_path ("address,count" +:+ endl)], 0)) as Hrun.
  { rewrite (main_report _ _ ∅) by (by apply read_input_closed).
    by rewrite report_empty. }
  split_and!.
  - exact Hrun.
  - unfold fs_after. simpl. apply map_eq. intros p.
    destruct (decide (p = AddressFreq.out_path)) as [->|Hne].
    + by rewrite lookup_alter_eq, !lookup_insert_eq.
    + by rewrite lookup_alter_ne, !lookup_insert_ne.
  - rewrite Hrun. rewrite (main_report _ _ ∅).
    + by rewrite report_empty.
    + unfold AddressFreq.read_input, ifstream_open.
      by rewrite lookup_insert_eq.
Qed.

Lemma unopened_input_like_empty_witness :
  AddressFreq.main map_to_list {[ AddressFreq.out_path := "stale,7" +:+ endl ]}
  = Done ([Cout ("0" +:+ endl); Create AddressFreq.out_path;
           Fout AddressFreq.out_path ("address,count" +:+ endl)], 0)
  ∧ fs_after {[ AddressFreq.out_path := "stale,7" +:+ endl ]}
             [Cout ("0" +:+ endl); Create AddressFreq.out_path;
              Fout AddressFreq.out_path ("address,count" +:+ endl)]
    = <[AddressFreq.out_path := "address,count" +:+ endl]>
        {[ AddressFreq.out_path := "stale,7" +:+ endl ]}
  ∧ AddressFreq.main map_to_list
      (<[AddressFreq.in_path := EmptyString]>
         {[ AddressFreq.out_path := "stale,7" +:+ endl ]})
    = AddressFreq.main map_to_list {[ AddressFreq.out_path := "stale,7" +:+ endl ]}.
Proof.
  apply (unopened_input_like_empty
           {[ AddressFreq.out_path := "stale,7" +:+ endl ]} map_to_list).
  - reflexivity.
  - intros m. reflexivity.
Defined.

(** ** Running the program again *)

Lemma read_input_same_file fs fs' :
  fs !! AddressFreq.in_path = fs' !! AddressFreq.in_path →
  AddressFreq.read_input fs = AddressFreq.read_input fs'.
Proof.
  intros Hfs. unfold AddressFreq.read_input, ifstream_open. by rewrite Hfs.
Qed.

Lemma report_stdout iteration m :
  stdout_of (AddressFreq.report iteration m) = pretty (size m) +:+ endl.
Proof.
  unfold AddressFreq.report. cbn [stdout_of].
  assert (∀ rows : list (string * Z),
            stdout_of ((λ e, Fout AddressFreq.out_path (AddressFreq.row e)) <$> rows)
            = EmptyString) as ->; [by induction rows|].
  generalize (pretty (size m) +:+ endl). intros s.
  induction s as [|a s IH]; [done|].
  change (String a s +:+ "") with (String a (s +:+ "")). by rewrite IH.
Qed.

Lemma same_output_report iteration iteration' m :
  map_order iteration → map_order iteration' →
  same_output (Done (AddressFreq.report iteration m, 0))
              (Done (AddressFreq.report iteration' m, 0)).
Proof.
  intros Hit Hit'. split; [done|]. split; [by rewrite !report_stdout|].
  exists (AddressFreq.row <$> iteration m), (AddressFreq.row <$> iteration' m).
  split_and!; [apply report_lines..|]. by rewrite (Hit m), (Hit' m).
Qed.

Lemma fs_after_rows fs path (rows : list string) p :
  p ≠ path → fs_after fs (Fout path <$> rows) !! p = fs !! p.
Proof.
  intros Hp. revert fs. induction rows as [|r rows IH]; intros fs; [done|].
  rewrite fmap_cons. unfold fs_after in *. cbn [foldl]. rewrite IH.
  simpl. by rewrite lookup_alter_ne.
Qed.

Lemma fs_after_report iteration m fs p :
  p ≠ AddressFreq.out_path →
  fs_after fs (AddressFreq.report iteration m) !! p = fs !! p.
Proof.
  intros Hp. unfold AddressFreq.report.
  rewrite (list_fmap_compose AddressFreq.row (Fout AddressFreq.out_path)).
  unfold fs_after. cbn [foldl].
  pose proof (fs_after_rows) as Hrows. unfold fs_after in Hrows.
  rewrite Hrows by done. simpl.
  rewrite lookup_alter_ne by done. by rewrite lookup_insert_ne.
Qed.

Lemma string_app_assoc s t u : (s +:+ t) +:+ u = s +:+ (t +:+ u).
Proof.
  induction s as [|a s IH]; [done|].
  change (String a ((s +:+ t) +:+ u) = String a (s +:+ (t +:+ u))). by rewrite IH.
Qed.

Lemma fs_after_written fs path (rows : list string) c :
  fs !! path = Some c →
  fs_after fs (Fout path <$> rows) !! path = Some (c +:+ written rows).
Proof.
  revert fs c. induction rows as [|r rows IH]; intros fs c Hc.
  - simpl. rewrite Hc. f_equal. clear. induction c as [|a c IH]; [done|].
    change (String a c = String a (c +:+ "")). by rewrite <- IH.
  - rewrite fmap_cons. unfold fs_after in *. cbn [foldl].
    rewrite (IH _ (c +:+ r)).
    + by rewrite string_app_assoc.
    + simpl. rewrite lookup_alter_eq, Hc. done.
Qed.

(** The output file of a run holds the lines of its trace, and nothing
    else. *)
Lemma report_written iteration m fs :
  fs_after fs (AddressFreq.report iteration m) !! AddressFreq.out_path
  = Some (written (lines_to AddressFreq.out_path (AddressFreq.report iteration m))).
Proof.
  rewrite report_lines. unfold AddressFreq.report.
  rewrite (list_fmap_compose AddressFreq.row (Fout AddressFreq.out_path)).
  unfold fs_after. cbn [foldl].
  pose proof (fs_after_written) as Hrows. unfold fs_after in Hrows.
  rewrite (Hrows _ _ _ AddressFreq.header); [done|].
  simpl. rewrite lookup_alter_eq, lookup_insert_eq. done.
Qed.

(** C7.  Two runs on file systems that hold the same input file end the
    same way, whatever the iteration order of the table in either run:
    the same status, the same number printed, and after the header the
    same data rows up to their order.  A completed run leaves the input
    file as it was, so this holds for a second run after a first one. *)
Theorem rerun_same_output (fs fs' : filesystem)
    (iteration iteration' : gmap string Z → list (string * Z)) :
  map_order iteration → map_order iteration' →
  fs !! AddressFreq.in_path = fs' !! AddressFreq.in_path →
  same_output (AddressFreq.main iteration fs) (AddressFreq.main iteration' fs')
  ∧ ∀ tr code,
      AddressFreq.main iteration fs = Done (tr, code) →
      fs_after fs tr !! AddressFreq.in_path = fs !! AddressFreq.in_path
      ∧ same_output (AddressFreq.main iteration fs)
                    (AddressFreq.main iteration' (fs_after fs tr)).
Proof.
  intros Hit Hit' Hfs.
  assert (∀ fs1 fs2, fs1 !! AddressFreq.in_path = fs2 !! AddressFreq.in_path →
            same_output (AddressFreq.main iteration fs1)
                        (AddressFreq.main iteration' fs2)) as Hsame.
  { intros fs1 fs2 H12. unfold AddressFreq.main.
    rewrite (read_input_same_file _ _ H12).
    destruct (AddressFreq.read_input fs2) as [m| | |]; simpl; try done.
    by apply same_output_report. }
  split; [by apply Hsame|]. intros tr code Hrun.
  assert (fs_after fs tr !! AddressFreq.in_path = fs !! AddressFreq.in_path) as Hin.
  { unfold AddressFreq.main in Hrun.
    destruct (AddressFreq.read_input fs) as [m| | |]; simplify_eq/=.
    by apply fs_after_report. }
  split; [done|]. by apply Hsame.
Qed.

Lemma rerun_same_output_witness :
  same_output
    (AddressFreq.main map_to_list (file AddressFreq.in_path sample_terminated))
    (AddressFreq.main (reverse ∘ map_to_list)
       (<[AddressFreq.out_path := "stale,7" +:+ endl]>
          (file AddressFreq.in_path sample_terminated))).
Proof.
  destruct (rerun_same_output
              (file AddressFreq.in_path sample_terminated)
              (<[AddressFreq.out_path := "stale,7" +:+ endl]>
                 (file AddressFreq.in_path sample_terminated))
              map_to_list (reverse ∘ map_to_list)) as [Hsame _].
  - intros m. reflexivity.
  - intros m. apply reverse_Permutation.
  - by vm_compute.
  - exact Hsame.
Defined.

(** ** The contract-address list *)

Lemma find_first_of_nonneg s c : 0 ≤ find_first_of s c.
Proof. unfold find_first_of, npos, SIZE_MAX. destruct (index_of c s); lia. Qed.

Lemma get_address_total l :
  ReadData.get_address l = Done (str_take (Z.to_nat (find_first_of l comma)) l).
Proof. apply substr_prefix, find_first_of_nonneg. Qed.

Lemma set_read_loop_lines fuel fin s X :
  loop_ready fin →
  (eofbit fin = false → (String.length (buf fin) < fuel)%nat) →
  ∃ X', (ReadData.read_loop fuel fin s X ≫= λ '(_, _, Y), Done Y) = Done X'
      ∧ ∀ a, a ∈ X' ↔
             a ∈ X ∨ ∃ l, l ∈ lines_read fuel fin s ∧ ReadData.get_address l = Done a.
Proof.
  revert fin s X. induction fuel as [|fuel IH]; intros fin s X Hready Hlen.
  - simpl. unfold eof. destruct (eofbit fin).
    + exists X. split; [done|]. intros a. split; [auto|].
      intros [?|(l & Hl & _)]; [done|]. by apply elem_of_nil in Hl.
    + specialize (Hlen eq_refl). lia.
  - simpl. unfold eof. destruct (eofbit fin) eqn:Heof.
    { exists X. split; [done|]. intros a. split; [auto|].
      intros [?|(l & Hl & _)]; [done|]. by apply elem_of_nil in Hl. }
    specialize (Hready Heof). specialize (Hlen eq_refl).
    rewrite (getline_good _ _ Hready).
    destruct (read_until newline (buf fin)) as [line [rest|]] eqn:Hr;
      cbn -[lines_read ReadData.read_loop].
    + rewrite (get_address_total line). cbn -[lines_read ReadData.read_loop].
      edestruct (IH (Ifstream true rest false false) line) as (X' & -> & HX').
      { done. }
      { intros _. simpl. apply read_until_shorter in Hr. lia. }
      exists X'. split; [done|]. intros a. rewrite HX', elem_of_union, elem_of_singleton.
      split.
      * intros [[->|?]|(l & Hl & Ha)]; [right|by left|right].
        -- exists line. split; [left|]. apply get_address_total.
        -- exists l. split; [by right|done].
      * intros [?|(l & Hl & Ha)]; [by left; right|].
        apply elem_of_cons in Hl as [->|Hl].
        -- left. left. rewrite get_address_total in Ha. by injection Ha.
        -- right. by exists l.
    + rewrite (get_address_total line). cbn -[lines_read ReadData.read_loop].
      edestruct (IH (Ifstream true "" true (bool_decide (line = ""))) line)
        as (X' & -> & HX').
      { done. }
      { done. }
      exists X'. split; [done|]. intros a. rewrite HX', elem_of_union, elem_of_singleton.
      split.
      * intros [[->|?]|(l & Hl & Ha)]; [right|by left|right].
        -- exists line. split; [left|]. apply get_address_total.
        -- exists l. split; [by right|done].
      * intros [?|(l & Hl & Ha)]; [by left; right|].
        apply elem_of_cons in Hl as [->|Hl].
        -- left. left. rewrite get_address_total in Ha. by injection Ha.
        -- right. by exists l.
Qed.

Lemma set_read_input_spec fs :
  ∃ X, ReadData.read_input fs = Done X
     ∧ ∀ a, a ∈ X ↔ ∃ l, l ∈ ReadData.records fs ∧ ReadData.get_address l = Done a.
Proof.
  unfold ReadData.read_input, ReadData.records, processed, ifstream_open.
  destruct (fs !! ReadData.in_path) as [content|];
    cbn -[lines_read ReadData.read_loop getline].
  - rewrite getline_good by done. cbn -[lines_read ReadData.read_loop].
    destruct (read_until newline content) as [hd [rest|]];
      cbn -[lines_read ReadData.read_loop].
    + edestruct (set_read_loop_lines (S (String.length rest))
                   (Ifstream true rest false false) hd ∅) as (X & HX & Hin).
      { done. }
      { intros _. simpl. lia. }
      exists X. split.
      * destruct (ReadData.read_loop _ _ _ _) as [[[? ?] ?]| | |]; done.
      * intros a. rewrite Hin. split; [|by right].
        intros [Ha|?]; [|done]. by apply elem_of_empty in Ha.
    + exists ∅. split; [done|]. intros a. split; [by intros ?%elem_of_empty|].
      intros (l & Hl & _). by apply elem_of_nil in Hl.
  - exists ∅. split; [done|]. intros a. split; [by intros ?%elem_of_empty|].
    intros (l & Hl & _). by apply elem_of_nil in Hl.
Qed.






(** * Further properties of the two programs *)

(** ** How often the loop runs *)






(** ** What one pass of the loop does to the table *)

Lemma increment_inv m k m' :
  AddressFreq.increment m k = Done m' →
  m' = <[k := default 0 (m !! k) + 1]> m.
Proof.
  unfold AddressFreq.increment, int_add. cbv zeta.
  destruct (_ && _); simpl; [|done]. by intros [= <-].
Qed.

Lemma increment_grows m k m' :
  AddressFreq.increment m k = Done m' →
  (∀ a, default 0 (m !! a) ≤ default 0 (m' !! a))
  ∧ dom m ⊆ dom m'
  ∧ (size m ≤ size m' ≤ size m + 1)%nat.
Proof.
  intros ->%increment_inv. split_and!.
  - intros a. destruct (decide (k = a)) as [->|Hne].
    + rewrite lookup_insert_eq. simpl. lia.
    + by rewrite lookup_insert_ne.
  - rewrite dom_insert_L. set_solver.
  - destruct (m !! k) as [c|] eqn:Hk.
    + rewrite map_size_insert_Some by done. lia.
    + rewrite map_size_insert_None by done. lia.
  - destruct (m !! k) as [c|] eqn:Hk.
    + rewrite map_size_insert_Some by done. lia.
    + rewrite map_size_insert_None by done. lia.
Qed.

Lemma count_line_inv s m m' :
  AddressFreq.count_line s m = Done m' →
  ∃ k1 k2 m1, AddressFreq.increment m k1 = Done m1
            ∧ AddressFreq.increment m1 k2 = Done m'.
Proof.
  unfold AddressFreq.count_line. cbv zeta.
  destruct (substr s 0 _) as [k1| | |]; simpl; try done.
  destruct (AddressFreq.increment m k1) as [m1| | |] eqn:H1; simpl; try done.
  destruct (int_add _ 1) as [p1| | |]; simpl; try done.
  destruct (substr s _ _) as [k2| | |]; simpl; try done.
  intros H2. by exists k1, k2, m1.
Qed.

(** X2.  A pass of the loop body that completes never removes a key and
    never lowers a count; it adds at most two keys and exactly 2 to the
    sum of the counts, whatever the line it was given. *)
Theorem pass_only_adds (s : string) (m m' : gmap string Z) :
  AddressFreq.count_line s m = Done m' →
  dom m ⊆ dom m'
  ∧ (∀ a, default 0 (m !! a) ≤ default 0 (m' !! a))
  ∧ (size m ≤ size m' ≤ size m + 2)%nat
  ∧ total m' = total m + 2.
Proof.
  intros Hrun. pose proof (count_line_total _ _ _ Hrun) as Htotal.
  destruct (count_line_inv _ _ _ Hrun) as (k1 & k2 & m1 & H1 & H2).
  destruct (increment_grows _ _ _ H1) as (Hle1 & Hdom1 & Hsize1).
  destruct (increment_grows _ _ _ H2) as (Hle2 & Hdom2 & Hsize2).
  split_and!; [| |lia|lia|done].
  - by etrans.
  - intros a. etrans; [apply Hle1|apply Hle2].
Qed.

Lemma pass_only_adds_witness :
  dom ({[ "A" := 1; "B" := 1 ]} : gmap string Z)
    ⊆ dom ({[ "A" := 2; "B" := 1; "C" := 1 ]} : gmap string Z)
  ∧ total {[ "A" := 2; "B" := 1; "C" := 1 ]} = total {[ "A" := 1; "B" := 1 ]} + 2.
Proof.
  destruct (pass_only_adds "A,C" {[ "A" := 1; "B" := 1 ]}
              {[ "A" := 2; "B" := 1; "C" := 1 ]}) as (Hdom & _ & _ & Htotal).
  - by vm_compute.
  - split; [exact Hdom | exact Htotal].
Defined.

(** ** Every run that completes *)


Lemma increment_positive m k m' :
  AddressFreq.increment m k = Done m' →
  (∀ a c, m !! a = Some c → 1 ≤ c) → ∀ a c, m' !! a = Some c → 1 ≤ c.
Proof.
  intros ->%increment_inv Hpos a c. destruct (decide (k = a)) as [->|Hne].
  - rewrite lookup_insert_eq. intros [= <-].
    destruct (m !! a) as [v|] eqn:Ha; simpl; [|lia].
    specialize (Hpos a v Ha). lia.
  - rewrite lookup_insert_ne by done. apply Hpos.
Qed.

Lemma count_lines_positive ls m m' :
  count_lines ls m = Done m' →
  (∀ a c, m !! a = Some c → 1 ≤ c) →
  (∀ a c, m' !! a = Some c → 1 ≤ c)
  ∧ (size m' ≤ size m + 2 * length ls)%nat.
Proof.
  revert m. induction ls as [|l ls IH]; intros m; simpl.
  - intros [= <-] Hpos. split; [done|lia].
  - destruct (AddressFreq.count_line l m) as [m1| | |] eqn:Hl; simpl; try done.
    intros Hrun Hpos.
    destruct (count_line_inv _ _ _ Hl) as (k1 & k2 & m0 & H1 & H2).
    destruct (increment_grows _ _ _ H1) as (_ & _ & Hsize1).
    destruct (increment_grows _ _ _ H2) as (_ & _ & Hsize2).
    destruct (IH m1 Hrun) as [Hpos' Hsize].
    { eapply increment_positive; [exact H2|].
      eapply increment_positive; [exact H1|done]. }
    split; [done|lia].
Qed.



(** ** The first line and the last newline *)

Lemma processed_lines path fs hd rest :
  fs !! path = Some (hd +:+ endl +:+ rest) →
  index_of newline hd = None →
  processed path fs = segments newline rest.
Proof.
  intros Hfs Hhd. rewrite (processed_open _ _ _ Hfs).
  change (hd +:+ endl +:+ rest) with (hd +:+ String newline rest).
  by rewrite read_until_line.
Qed.

Lemma read_until_whole d s :
  index_of d s = None → read_until d s = (s, None).
Proof.
  induction s as [|a s IH]; simpl; [done|].
  case_decide; [done|]. destruct (index_of d s); [done|]. intros _.
  by rewrite IH.
Qed.

Lemma processed_one_line path fs content :
  fs !! path = Some content → index_of newline content = None →
  processed path fs = [].
Proof.
  intros Hfs Hnl. rewrite (processed_open _ _ _ Hfs).
  by rewrite read_until_whole.
Qed.

(** X4.  The first line of the input is skipped whatever it holds: two
    inputs that differ in their first line only give the same run, be it
    the same trace and status or the same failure. *)
Theorem header_is_ignored (fs : filesystem)
    (iteration : gmap string Z → list (string * Z)) (hd hd' rest : string) :
  index_of newline hd = None →
  index_of newline hd' = None →
  AddressFreq.main iteration (<[AddressFreq.in_path := hd +:+ endl +:+ rest]> fs)
  = AddressFreq.main iteration (<[AddressFreq.in_path := hd' +:+ endl +:+ rest]> fs).
Proof.
  intros Hhd Hhd'. unfold AddressFreq.main. rewrite !read_input_lines.
  rewrite (processed_lines _ _ hd rest) by (done || apply lookup_insert_eq).
  rewrite (processed_lines _ _ hd' rest) by (done || apply lookup_insert_eq).
  done.
Qed.

Lemma header_is_ignored_witness :
  AddressFreq.main map_to_list
    (<[AddressFreq.in_path := "addr,count" +:+ endl +:+ "A,B"]> ∅)
  = AddressFreq.main map_to_list
      (<[AddressFreq.in_path := "from,to,value" +:+ endl +:+ "A,B"]> ∅).
Proof.
  apply (header_is_ignored ∅ map_to_list "addr,count" "from,to,value" "A,B").
  - reflexivity.
  - reflexivity.
Defined.

(** X5.  An input file without any newline, be it empty or a header line
    that is not ended, is treated like a file that cannot be opened: the
    loop is not entered, and the run prints [0] and writes the header
    alone. *)
Theorem one_line_input_counts_nothing (fs : filesystem)
    (iteration : gmap string Z → list (string * Z)) (content : string) :
  map_order iteration →
  fs !! AddressFreq.in_path = Some content →
  index_of newline content = None →
  AddressFreq.records fs = []
  ∧ AddressFreq.main iteration fs
    = Done ([Cout ("0" +:+ endl); Create AddressFreq.out_path;
             Fout AddressFreq.out_path ("address,count" +:+ endl)], 0).
Proof.
  intros Hit Hfs Hnl.
  pose proof (processed_one_line _ _ _ Hfs Hnl) as Hrec.
  split; [done|]. rewrite (main_report _ _ ∅).
  - by rewrite report_empty.
  - by rewrite read_input_lines, Hrec.
Qed.

Lemma one_line_input_counts_nothing_witness :
  AddressFreq.records (file AddressFreq.in_path "address_1,address_2") = []
  ∧ AddressFreq.main map_to_list (file AddressFreq.in_path "address_1,address_2")
    = Done ([Cout ("0" +:+ endl); Create AddressFreq.out_path;
             Fout AddressFreq.out_path ("address,count" +:+ endl)], 0).
Proof.
  apply (one_line_input_counts_nothing
           (file AddressFreq.in_path "address_1,address_2") map_to_list
           "address_1,address_2").
  - intros m. reflexivity.
  - reflexivity.
  - reflexivity.
Defined.

Lemma count_lines_app ls ls' m :
  count_lines (ls ++ ls') m = count_lines ls m ≫= count_lines ls'.
Proof.
  revert m. induction ls as [|l ls IH]; intros m; simpl; [done|].
  rewrite outcome_bind_assoc. destruct (AddressFreq.count_line l m); simpl; auto.
Qed.

Lemma segments_last_empty rest :
  rest = EmptyString ∨ (∃ body, rest = body +:+ endl) →
  ∃ ls, segments newline rest = ls ++ [EmptyString].
Proof.
  intros [->|[body ->]].
  - by exists [].
  - exists (segments newline body). apply segments_snoc.
Qed.

Lemma empty_line_counted m m' :
  AddressFreq.count_line EmptyString m = Done m' →
  m' !! EmptyString = Some (default 0 (m !! EmptyString) + 2).
Proof.
  rewrite count_line_columns by (apply short_splittable; by vm_compute).
  change (columns "") with ("", ""). simpl.
  destruct (AddressFreq.increment m "") as [m1| | |] eqn:H1; simpl; [|done..].
  intros H2. apply increment_inv in H1 as ->. apply increment_inv in H2 as ->.
  rewrite !lookup_insert_eq. simpl. f_equal. lia.
Qed.

(** X6.  When the text after the first line is empty or ends with a
    newline, the last pass of the loop is made on an empty line: in a
    run that completes, the empty string is a key of the table, with a
    count of at least 2. *)
Theorem newline_at_end_counts_empty_address (fs : filesystem)
    (hd rest : string) :
  fs !! AddressFreq.in_path = Some (hd +:+ endl +:+ rest) →
  index_of newline hd = None →
  rest = EmptyString ∨ (∃ body, rest = body +:+ endl) →
  last (AddressFreq.records fs) = Some EmptyString
  ∧ ∀ m, AddressFreq.read_input fs = Done m →
         ∃ c, m !! EmptyString = Some c ∧ 2 ≤ c.
Proof.
  intros Hfs Hhd Hrest.
  pose proof (processed_lines _ _ _ _ Hfs Hhd) as Hrec.
  destruct (segments_last_empty rest Hrest) as [ls Hls].
  unfold AddressFreq.records. rewrite Hrec, Hls. split; [apply last_snoc|].
  intros m. rewrite read_input_lines, Hrec, Hls, count_lines_app.
  destruct (count_lines ls ∅) as [m0| | |] eqn:H0; simpl; try done.
  destruct (AddressFreq.count_line "" m0) as [m1| | |] eqn:H1; simpl; try done.
  intros [= <-]. exists (default 0 (m0 !! "") + 2).
  split; [by apply empty_line_counted|].
  destruct (count_lines_positive _ _ _ H0) as [Hpos _].
  { intros a c. by rewrite lookup_empty. }
  destruct (m0 !! "") as [c|] eqn:Hc; simpl; [|lia].
  specialize (Hpos "" c Hc). lia.
Qed.

Lemma newline_at_end_counts_empty_address_witness :
  last (AddressFreq.records (file AddressFreq.in_path ("addr,count" +:+ endl)))
  = Some EmptyString
  ∧ ∀ m, AddressFreq.read_input (file AddressFreq.in_path ("addr,count" +:+ endl))
         = Done m →
         ∃ c, m !! EmptyString = Some c ∧ 2 ≤ c.
Proof.
  apply (newline_at_end_counts_empty_address
           (file AddressFreq.in_path ("addr,count" +:+ endl)) "addr,count" "").
  - reflexivity.
  - reflexivity.
  - left. reflexivity.
Defined.

(** ** The rows of the output *)

Lemma occurrences_perm a ks ks' :
  ks ≡ₚ ks' → occurrences a ks = occurrences a ks'.
Proof. intros Hperm. unfold occurrences. by rewrite Hperm. Qed.

Lemma tally_NoDup ks : NoDup (tally ks).
Proof.
  unfold tally. apply NoDup_fmap_2; [|apply NoDup_elements].
  by intros a b [= ->].
Qed.

Lemma elem_of_tally a c ks :
  (a, c) ∈ tally ks ↔ a ∈ ks ∧ c = occurrences a ks.
Proof.
  unfold tally. rewrite list_elem_of_fmap. split.
  - intros (b & [= -> ->] & Hb). by rewrite elem_of_elements, elem_of_list_to_set in Hb.
  - intros [Ha ->]. exists a. split; [done|].
    by rewrite elem_of_elements, elem_of_list_to_set.
Qed.

Lemma table_entries (m : gmap string Z) ks :
  (∀ a, m !! a = if decide (occurrences a ks = 0) then None
                 else Some (occurrences a ks)) →
  map_to_list m ≡ₚ tally ks.
Proof.
  intros Hm. apply NoDup_Permutation; [apply NoDup_map_to_list|apply tally_NoDup|].
  intros [a c]. rewrite elem_of_map_to_list, elem_of_tally, Hm, occurrences_pos.
  pose proof (occurrences_nonneg a ks).
  case_decide; split; try done; try lia.
  - intros [= <-]. split; [lia|done].
  - by intros [_ ->].
Qed.

(** X7.  When the lines and the counts fit the integer types, the data
    rows of the output are exactly the tally of the two columns: one row
    for each distinct address, holding the number of times it occurs in
    the processed records, and no address on two rows. *)
Theorem output_is_the_tally (fs : filesystem)
    (iteration : gmap string Z → list (string * Z)) :
  map_order iteration →
  Forall splittable (AddressFreq.records fs) →
  (∀ a, occurrences a (addresses (AddressFreq.records fs)) ≤ INT_MAX) →
  ∃ m,
    AddressFreq.read_input fs = Done m
    ∧ iteration m ≡ₚ tally (addresses (AddressFreq.records fs))
    ∧ NoDup (iteration m).*1
    ∧ lines_to AddressFreq.out_path (AddressFreq.report iteration m)
      = AddressFreq.header :: (AddressFreq.row <$> iteration m).
Proof.
  intros Hit Hsplit Hmax. unfold AddressFreq.records in *.
  destruct (read_input_spec fs Hsplit Hmax) as (m & Hrun & Hm & _).
  exists m. split_and!; [done| | |apply report_lines].
  - rewrite (Hit m). by apply table_entries.
  - rewrite (Hit m). apply NoDup_fst_map_to_list.
Qed.

Lemma output_is_the_tally_witness :
  ∃ m,
    AddressFreq.read_input (file AddressFreq.in_path sample_twice) = Done m
    ∧ map_to_list m ≡ₚ [("A", 3); ("C", 1)].
Proof.
  destruct (output_is_the_tally (file AddressFreq.in_path sample_twice) map_to_list)
    as (m & Hrun & Hrows & _).
  - intros m. reflexivity.
  - change (AddressFreq.records (file AddressFreq.in_path sample_twice))
      with ["A,A"; "A,C"].
    repeat constructor; apply short_splittable; by vm_compute.
  - intros a. etrans; [apply occurrences_le_length|]. by vm_compute.
  - exists m. split; [exact Hrun|]. rewrite Hrows.
    apply (bool_decide_unpack _). by vm_compute.
Defined.

(** X8.  The table does not depend on the order of the records, nor on
    which of its two columns an address stands in: two inputs within the
    range of the integer types whose records hold the same addresses the
    same number of times leave the same table. *)
Theorem record_order_is_irrelevant (fs fs' : filesystem) :
  Forall splittable (AddressFreq.records fs) →
  Forall splittable (AddressFreq.records fs') →
  (∀ a, occurrences a (addresses (AddressFreq.records fs)) ≤ INT_MAX) →
  addresses (AddressFreq.records fs) ≡ₚ addresses (AddressFreq.records fs') →
  ∃ m, AddressFreq.read_input fs = Done m ∧ AddressFreq.read_input fs' = Done m.
Proof.
  intros Hsplit Hsplit' Hmax Hperm. unfold AddressFreq.records in *.
  destruct (read_input_spec fs Hsplit Hmax) as (m & Hrun & Hm & _).
  destruct (read_input_spec fs' Hsplit') as (m' & Hrun' & Hm' & _).
  { intros a. rewrite <- (occurrences_perm a _ _ Hperm). apply Hmax. }
  exists m. split; [done|]. rewrite Hrun'. f_equal. apply map_eq. intros a.
  by rewrite Hm, Hm', (occurrences_perm a _ _ Hperm).
Qed.

Lemma record_order_is_irrelevant_witness :
  ∃ m,
    AddressFreq.read_input (file AddressFreq.in_path sample_unterminated) = Done m
    ∧ AddressFreq.read_input (file AddressFreq.in_path sample_shuffled) = Done m.
Proof.
  apply (record_order_is_irrelevant
           (file AddressFreq.in_path sample_unterminated)
           (file AddressFreq.in_path sample_shuffled)).
  - change (AddressFreq.records (file AddressFreq.in_path sample_unterminated))
      with ["A,B"; "A,C"].
    repeat constructor; apply short_splittable; by vm_compute.
  - change (AddressFreq.records (file AddressFreq.in_path sample_shuffled))
      with ["C,A"; "A,B"].
    repeat constructor; apply short_splittable; by vm_compute.
  - intros a. etrans; [apply occurrences_le_length|]. by vm_compute.
  - apply (bool_decide_unpack _). by vm_compute.
Defined.

(** X9.  A run that completes exits with status 0 and changes one file
    only: the output file, which afterwards holds the lines the run wrote
    and nothing of what it held before. *)
Theorem run_writes_only_the_output (fs : filesystem)
    (iteration : gmap string Z → list (string * Z))
    (tr : list event) (code : Z) :
  AddressFreq.main iteration fs = Done (tr, code) →
  code = 0
  ∧ fs_after fs tr
    = <[AddressFreq.out_path := written (lines_to AddressFreq.out_path tr)]> fs.
Proof.
  unfold AddressFreq.main.
  destruct (AddressFreq.read_input fs) as [m| | |]; simpl; try done.
  intros [= <- <-]. split; [done|]. apply map_eq. intros p.
  destruct (decide (p = AddressFreq.out_path)) as [->|Hne].
  - by rewrite report_written, lookup_insert_eq.
  - rewrite fs_after_report by done. by rewrite lookup_insert_ne.
Qed.

Lemma run_writes_only_the_output_witness :
  fs_after (<[AddressFreq.out_path := "stale,7" +:+ endl]>
              (file AddressFreq.in_path ("addr,count" +:+ endl +:+ "A,A")))
           [Cout ("1" +:+ endl); Create AddressFreq.out_path;
            Fout AddressFreq.out_path AddressFreq.header;
            Fout AddressFreq.out_path ("A,2" +:+ endl)]
  = <[AddressFreq.out_path := "address,count" +:+ endl +:+ "A,2" +:+ endl]>
      (<[AddressFreq.out_path := "stale,7" +:+ endl]>
         (file AddressFreq.in_path ("addr,count" +:+ endl +:+ "A,A"))).
Proof.
  destruct (run_writes_only_the_output
              (<[AddressFreq.out_path := "stale,7" +:+ endl]>
                 (file AddressFreq.in_path ("addr,count" +:+ endl +:+ "A,A")))
              map_to_list
              [Cout ("1" +:+ endl); Create AddressFreq.out_path;
               Fout AddressFreq.out_path AddressFreq.header;
               Fout AddressFreq.out_path ("A,2" +:+ endl)] 0) as [_ Hfs].
  - by vm_compute.
  - exact Hfs.
Defined.

(** ** What an address can hold *)

Lemma str_take_without c n s :
  index_of c s = None → index_of c (str_take n s) = None.
Proof.
  revert n. induction s as [|a s IH]; intros [|n]; simpl; try done.
  case_decide; [done|]. destruct (index_of c s) eqn:Hs; [done|]. intros _.
  by rewrite IH.
Qed.

Lemma str_drop_without c n s :
  index_of c s = None → index_of c (str_drop n s) = None.
Proof.
  revert n. induction s as [|a s IH]; intros [|n]; simpl; try done.
  case_decide; [done|]. destruct (index_of c s) eqn:Hs; [done|]. intros _.
  by apply IH.
Qed.

Lemma substr_without c s p n r :
  substr s p n = Done r → index_of c s = None → index_of c r = None.
Proof.
  unfold substr. case_match; [done|]. intros [= <-] Hs.
  by apply str_take_without, str_drop_without.
Qed.

Lemma segments_without d s : Forall (λ l, index_of d l = None) (segments d s).
Proof.
  induction s as [|a s IH]; simpl; [by repeat constructor|].
  case_decide; [by constructor|].
  destruct (segments d s) as [|x xs]; [by repeat constructor; simpl; rewrite decide_False|].
  apply Forall_cons in IH as [Hx Hxs]. constructor; [|done].
  simpl. rewrite decide_False by done. by rewrite Hx.
Qed.

Lemma processed_without_newline path fs :
  Forall (λ l, index_of newline l = None) (processed path fs).
Proof.
  destruct (fs !! path) as [content|] eqn:Hfs.
  - rewrite (processed_open _ _ _ Hfs).
    destruct (read_until newline content) as [hd [rest|]]; [|done].
    apply segments_without.
  - by rewrite processed_closed.
Qed.

Lemma count_line_keys s m m' :
  AddressFreq.count_line s m = Done m' →
  ∃ k1 k2 p n q, substr s 0 q = Done k1 ∧ substr s p n = Done k2
               ∧ dom m' = {[k2]} ∪ ({[k1]} ∪ dom m).
Proof.
  unfold AddressFreq.count_line. cbv zeta.
  destruct (substr s 0 _) as [k1| | |] eqn:Hk1; simpl; try done.
  destruct (AddressFreq.increment m k1) as [m1| | |] eqn:H1; simpl; try done.
  destruct (int_add _ 1) as [p1| | |]; simpl; try done.
  destruct (substr s (to_size_t p1) _) as [k2| | |] eqn:Hk2; simpl; try done.
  intros H2. exists k1, k2. do 3 eexists. split; [exact Hk1|]. split; [exact Hk2|].
  apply increment_inv in H1 as ->. apply increment_inv in H2 as ->.
  by rewrite !dom_insert_L.
Qed.

Lemma count_lines_without_newline ls m m' :
  count_lines ls m = Done m' →
  Forall (λ l, index_of newline l = None) ls →
  (∀ a, a ∈ dom m → index_of newline a = None) →
  ∀ a, a ∈ dom m' → index_of newline a = None.
Proof.
  revert m. induction ls as [|l ls IH]; intros m; simpl.
  - by intros [= <-].
  - destruct (AddressFreq.count_line l m) as [m1| | |] eqn:Hl; simpl; try done.
    intros Hrun [Hnl Hls]%Forall_cons Hm. apply (IH m1); [done|done|].
    destruct (count_line_keys _ _ _ Hl) as (k1 & k2 & p & n & q & Hk1 & Hk2 & ->).
    intros a. rewrite !elem_of_union, !elem_of_singleton.
    intros [->|[->|Ha]]; [by eapply substr_without..|by apply Hm].
Qed.

(** X10.  No address of the table holds a newline, whatever the input:
    every key is a piece of one line that [getline] returned. *)
Theorem addresses_hold_no_newline (fs : filesystem) (m : gmap string Z) :
  AddressFreq.read_input fs = Done m →
  ∀ a c, m !! a = Some c → index_of newline a = None.
Proof.
  rewrite read_input_lines. intros Hrun a c Ha.
  apply (count_lines_without_newline _ _ _ Hrun).
  - apply processed_without_newline.
  - intros b. by rewrite dom_empty_L, elem_of_empty.
  - apply elem_of_dom. by exists c.
Qed.

Lemma addresses_hold_no_newline_witness :
  index_of newline "A" = None.
Proof.
  apply (addresses_hold_no_newline (file AddressFreq.in_path sample_terminated)
           {[ "A" := 2; "B" := 1; "C" := 1; "" := 2 ]} ltac:(by vm_compute) "A" 2).
  reflexivity.
Defined.

(** ** The first field *)

(** X11.  Taking the first field has no limit on the length of the line:
    for a first comma at any index, [get_first_address] and [get_address]
    return the text before it and never throw; only the second field goes
    through an [int]. *)
Theorem first_field_has_no_limit (s : string) (i : nat) :
  index_of comma s = Some i →
  AddressFreq.get_first_address s = Done (str_take i s)
  ∧ ReadData.get_address s = Done (str_take i s)
  ∧ index_of comma (str_take i s) = None.
Proof.
  intros Hi. unfold AddressFreq.get_first_address, ReadData.get_address.
  rewrite (find_first_of_Some _ _ _ Hi), substr_prefix by lia.
  rewrite Nat2Z.id. split_and!; [done|done|by apply index_of_take].
Qed.

Lemma first_field_has_no_limit_witness :
  AddressFreq.get_first_address "0xa1,0xb2" = Done "0xa1"
  ∧ ReadData.get_address "0xa1,0xb2" = Done "0xa1"
  ∧ index_of comma "0xa1" = None.
Proof.
  apply (first_field_has_no_limit "0xa1,0xb2" 4). reflexivity.
Defined.

(** ** The contract-address list, further *)

Lemma get_address_without_comma l a :
  ReadData.get_address l = Done a → index_of comma a = None.
Proof.
  unfold ReadData.get_address. destruct (index_of comma l) as [i|] eqn:Hi.
  - rewrite (find_first_of_Some _ _ _ Hi), substr_prefix by lia.
    rewrite Nat2Z.id. intros [= <-]. by apply index_of_take.
  - intros Ha. by apply (substr_without _ _ _ _ _ Ha).
Qed.

Lemma get_address_without_newline l a :
  ReadData.get_address l = Done a → index_of newline l = None →
  index_of newline a = None.
Proof. apply substr_without. Qed.

Lemma trace_written fs path (c h : string) (rows : list string) :
  lines_to path (Cout c :: Create path :: Fout path h :: (Fout path <$> rows))
  = h :: rows
  ∧ fs_after fs (Cout c :: Create path :: Fout path h :: (Fout path <$> rows))
    = <[path := written (h :: rows)]> fs.
Proof.
  split.
  - cbn [lines_to]. rewrite decide_True by done. by rewrite lines_to_rows.
  - apply map_eq. intros p. unfold fs_after. cbn [foldl].
    pose proof fs_after_written as Hw. pose proof fs_after_rows as Hr.
    unfold fs_after in Hw, Hr.
    destruct (decide (p = path)) as [->|Hne].
    + rewrite (Hw _ _ _ h), lookup_insert_eq; [done|].
      simpl. by rewrite lookup_alter_eq, lookup_insert_eq.
    + rewrite Hr by done. simpl.
      by rewrite lookup_alter_ne, !lookup_insert_ne.
Qed.

(** X12.  Every data row of the contract list is one address that holds
    neither a comma nor a newline: the output is a single column, one
    address to the line, whatever the input. *)
Theorem contract_rows_hold_no_separator (fs : filesystem)
    (iteration : gset string → list string) :
  set_order iteration →
  ∃ rows,
    ReadData.main iteration fs
    = Done (Cout (pretty (length rows) +:+ endl)
            :: Create ReadData.out_path
            :: Fout ReadData.out_path ("contract_address" +:+ endl)
            :: (Fout ReadData.out_path <$> ((λ a, a +:+ endl) <$> rows)), 0)
    ∧ Forall (λ a, index_of comma a = None ∧ index_of newline a = None) rows.
Proof.
  intros Hit. destruct (set_read_input_spec fs) as (X & Hrun & HX).
  exists (iteration X). split.
  - unfold ReadData.main. rewrite Hrun. simpl. unfold ReadData.report.
    rewrite (Permutation_length (Hit X)). rewrite <- list_fmap_compose. done.
  - apply Forall_forall. intros a. rewrite (Hit X), elem_of_elements, HX.
    intros (l & Hl & Ha). split; [by eapply get_address_without_comma|].
    apply (get_address_without_newline l a Ha).
    pose proof (processed_without_newline ReadData.in_path fs) as Hnl.
    rewrite Forall_forall in Hnl. by apply Hnl.
Qed.

Lemma contract_rows_hold_no_separator_witness :
  ∃ rows,
    ReadData.main elements (file ReadData.in_path sample_contracts)
    = Done (Cout (pretty (length rows) +:+ endl)
            :: Create ReadData.out_path
            :: Fout ReadData.out_path ("contract_address" +:+ endl)
            :: (Fout ReadData.out_path <$> ((λ a, a +:+ endl) <$> rows)), 0)
    ∧ Forall (λ a, index_of comma a = None ∧ index_of newline a = None) rows.
Proof.
  apply (contract_rows_hold_no_separator
           (file ReadData.in_path sample_contracts) elements).
  intros X. reflexivity.
Defined.

(** X13.  When its input file cannot be opened, or holds no newline, the
    contract-list tool makes no pass of its loop: it prints [0] and writes
    the header alone. *)
Theorem contract_list_without_records (fs : filesystem)
    (iteration : gset string → list string) :
  set_order iteration →
  fs !! ReadData.in_path = None
  ∨ (∃ content, fs !! ReadData.in_path = Some content
                ∧ index_of newline content = None) →
  ReadData.records fs = []
  ∧ ReadData.main iteration fs
    = Done ([Cout ("0" +:+ endl); Create ReadData.out_path;
             Fout ReadData.out_path ("contract_address" +:+ endl)], 0).
Proof.
  intros Hit Hfs.
  assert (ReadData.records fs = []) as Hrec.
  { destruct Hfs as [Hfs|(content & Hfs & Hnl)].
    - by apply processed_closed.
    - by apply (processed_one_line _ _ content). }
  split; [done|].
  destruct (set_read_input_spec fs) as (X & Hrun & HX).
  assert (X = ∅) as ->.
  { apply set_eq. intros a. rewrite HX, Hrec. split; [|by intros ?%elem_of_empty].
    intros (l & Hl & _). by apply elem_of_nil in Hl. }
  unfold ReadData.main. rewrite Hrun. simpl. unfold ReadData.report.
  assert (iteration ∅ = []) as ->; [|done].
  apply Permutation_nil_r. rewrite (Hit ∅). by rewrite elements_empty.
Qed.

Lemma contract_list_without_records_witness :
  ReadData.records ∅ = []
  ∧ ReadData.main elements ∅
    = Done ([Cout ("0" +:+ endl); Create ReadData.out_path;
             Fout ReadData.out_path ("contract_address" +:+ endl)], 0).
Proof.
  apply (contract_list_without_records ∅ elements).
  - intros X. reflexivity.
  - left. reflexivity.
Defined.

(** X14.  In a file system where the input file is either absent or a
    file that is read to its end, the contract-list tool never fails: it
    throws no exception and overflows no integer, whatever the lines
    hold and however long they are; it ends with status 0, having changed
    one file only, the output file, which then holds the lines the run
    wrote and nothing of what it held before. *)
Theorem contract_run_always_completes (fs : filesystem)
    (iteration : gset string → list string) :
  fs !! ReadData.in_path = None
  ∨ (∃ content, fs !! ReadData.in_path = Some content) →
  ∃ tr,
    ReadData.main iteration fs = Done (tr, 0)
    ∧ fs_after fs tr
      = <[ReadData.out_path := written (lines_to ReadData.out_path tr)]> fs.
Proof.
  intros _. destruct (set_read_input_spec fs) as (X & Hrun & _).
  unfold ReadData.main. rewrite Hrun. simpl. eexists. split; [done|].
  unfold ReadData.report.
  rewrite (list_fmap_compose (λ a, a +:+ endl) (Fout ReadData.out_path)).
  destruct (trace_written fs ReadData.out_path (pretty (size X) +:+ endl)
              ReadData.header ((λ a, a +:+ endl) <$> iteration X)) as [-> ->].
  done.
Qed.

Lemma contract_run_always_completes_witness :
  ∃ tr,
    ReadData.main elements (file ReadData.in_path sample_contracts) = Done (tr, 0)
    ∧ fs_after (file ReadData.in_path sample_contracts) tr
      = <[ReadData.out_path := written (lines_to ReadData.out_path tr)]>
          (file ReadData.in_path sample_contracts).
Proof.
  apply (contract_run_always_completes
           (file ReadData.in_path sample_contracts) elements).
  right. exists sample_contracts. reflexivity.
Defined.

(** ** Nothing of the input is lost *)

Lemma join_segments s : join_lines (segments newline s) = s.
Proof.
  induction s as [|a s IH]; [done|]. simpl segments.
  pose proof (segments_nonempty newline s) as Hne.
  case_decide as Ha.
  - subst a. destruct (segments newline s) as [|x xs] eqn:Hs; [done|].
    change (join_lines ("" :: x :: xs)) with (String newline (join_lines (x :: xs))).
    by rewrite IH.
  - destruct (segments newline s) as [|x xs] eqn:Hs; [done|].
    destruct xs as [|y ys].
    + simpl in *. by rewrite IH.
    + change (join_lines (String a x :: y :: ys))
        with (String a (join_lines (x :: y :: ys))).
      by rewrite IH.
Qed.

Lemma read_until_index d s i :
  index_of d s = Some i →
  read_until d s = (str_take i s, Some (str_drop (S i) s)).
Proof.
  revert i. induction s as [|a s IH]; intros i; simpl; [done|].
  case_decide; [by intros [= <-]|].
  destruct (index_of d s) as [j|]; simpl; [|done]. intros [= <-].
  by rewrite (IH j eq_refl).
Qed.

(** X15.  The loop loses nothing of the input: the lines it processes,
    joined by newlines, are the whole text that follows the first newline
    of the file, so the file is its first line, a newline, and the
    processed lines. *)
Theorem loop_reads_the_whole_text (path : string) (fs : filesystem)
    (content : string) (i : nat) :
  fs !! path = Some content →
  index_of newline content = Some i →
  join_lines (processed path fs) = str_drop (S i) content
  ∧ content = str_take i content +:+ endl +:+ join_lines (processed path fs).
Proof.
  intros Hfs Hi. rewrite (processed_open _ _ _ Hfs), (read_until_index _ _ _ Hi).
  rewrite join_segments. split; [done|]. by apply index_of_split.
Qed.

Lemma loop_reads_the_whole_text_witness :
  sample_terminated
  = "addr,count" +:+ endl
    +:+ join_lines (AddressFreq.records (file AddressFreq.in_path sample_terminated)).
Proof.
  destruct (loop_reads_the_whole_text AddressFreq.in_path
              (file AddressFreq.in_path sample_terminated) sample_terminated 10)
    as [_ H].
  - reflexivity.
  - reflexivity.
  - exact H.
Defined.

(** ** The contract list and the shape of its input *)

(** X16.  When the text after the first line of the contract file is
    empty or ends with a newline, the last pass of the loop is made on an
    empty line, and the empty address is one of the rows of the list. *)
Theorem contract_list_gets_empty_row (fs : filesystem)
    (iteration : gset string → list string) (hd rest : string) :
  set_order iteration →
  fs !! ReadData.in_path = Some (hd +:+ endl +:+ rest) →
  index_of newline hd = None →
  rest = EmptyString ∨ (∃ body, rest = body +:+ endl) →
  last (ReadData.records fs) = Some EmptyString
  ∧ ∃ rows,
      ReadData.main iteration fs
      = Done (Cout (pretty (length rows) +:+ endl)
              :: Create ReadData.out_path
              :: Fout ReadData.out_path ("contract_address" +:+ endl)
              :: (Fout ReadData.out_path <$> ((λ a, a +:+ endl) <$> rows)), 0)
      ∧ EmptyString ∈ rows.
Proof.
  intros Hit Hfs Hhd Hrest.
  pose proof (processed_lines _ _ _ _ Hfs Hhd) as Hrec.
  destruct (segments_last_empty rest Hrest) as [ls Hls].
  unfold ReadData.records. rewrite Hrec, Hls. split; [apply last_snoc|].
  destruct (set_read_input_spec fs) as (X & Hrun & HX).
  exists (iteration X). split.
  - unfold ReadData.main. rewrite Hrun. simpl. unfold ReadData.report.
    rewrite (Permutation_length (Hit X)). rewrite <- list_fmap_compose. done.
  - rewrite (Hit X), elem_of_elements, HX. exists "". split; [|done].
    unfold ReadData.records. rewrite Hrec, Hls. apply elem_of_app. right. left.
Qed.

Lemma contract_list_gets_empty_row_witness :
  last (ReadData.records
          (file ReadData.in_path ("address,name" +:+ endl +:+ "0xa,Ant" +:+ endl)))
  = Some EmptyString.
Proof.
  destruct (contract_list_gets_empty_row
              (file ReadData.in_path ("address,name" +:+ endl +:+ "0xa,Ant" +:+ endl))
              elements "address,name" ("0xa,Ant" +:+ endl)) as [H _].
  - intros X. reflexivity.
  - reflexivity.
  - reflexivity.
  - right. by exists "0xa,Ant".
  - exact H.
Defined.

(** X17.  The contract list depends on the set of the processed lines
    only, up to the order of its rows: two runs on inputs in which the
    same lines occur, in any order and any number of times, print the
    same number and write the same rows, each run in the iteration order
    of its own set. *)
Theorem contract_list_ignores_repeats (fs fs' : filesystem)
    (iteration iteration' : gset string → list string) :
  set_order iteration → set_order iteration' →
  (∀ l, l ∈ ReadData.records fs ↔ l ∈ ReadData.records fs') →
  ∃ rows rows',
    ReadData.main iteration fs
    = Done (Cout (pretty (length rows) +:+ endl)
            :: Create ReadData.out_path
            :: Fout ReadData.out_path ("contract_address" +:+ endl)
            :: (Fout ReadData.out_path <$> ((λ a, a +:+ endl) <$> rows)), 0)
    ∧ ReadData.main iteration' fs'
      = Done (Cout (pretty (length rows') +:+ endl)
              :: Create ReadData.out_path
              :: Fout ReadData.out_path ("contract_address" +:+ endl)
              :: (Fout ReadData.out_path <$> ((λ a, a +:+ endl) <$> rows')), 0)
    ∧ rows ≡ₚ rows'
    ∧ length rows = length rows'.
Proof.
  intros Hit Hit' Hsame.
  destruct (set_read_input_spec fs) as (X & Hrun & HX).
  destruct (set_read_input_spec fs') as (X' & Hrun' & HX').
  assert (X = X') as <-.
  { apply set_eq. intros a. rewrite HX, HX'. by setoid_rewrite Hsame. }
  exists (iteration X), (iteration' X). split_and!.
  - unfold ReadData.main. rewrite Hrun. simpl. unfold ReadData.report.
    rewrite (Permutation_length (Hit X)). rewrite <- list_fmap_compose. done.
  - unfold ReadData.main. rewrite Hrun'. simpl. unfold ReadData.report.
    rewrite (Permutation_length (Hit' X)). rewrite <- list_fmap_compose. done.
  - by rewrite (Hit X), (Hit' X).
  - by rewrite (Permutation_length (Hit X)), (Permutation_length (Hit' X)).
Qed.

Lemma contract_list_ignores_repeats_witness :
  ∃ rows rows',
    ReadData.main elements
      (file ReadData.in_path ("address,name" +:+ endl +:+ "0xa,Ant" +:+ endl
                              +:+ "0xb,Bee" +:+ endl +:+ "0xa,Ant"))
    = Done (Cout (pretty (length rows) +:+ endl)
            :: Create ReadData.out_path
            :: Fout ReadData.out_path ("contract_address" +:+ endl)
            :: (Fout ReadData.out_path <$> ((λ a, a +:+ endl) <$> rows)), 0)
    ∧ ReadData.main (reverse ∘ elements)
        (file ReadData.in_path ("contract" +:+ endl +:+ "0xb,Bee" +:+ endl
                                +:+ "0xa,Ant"))
      = Done (Cout (pretty (length rows') +:+ endl)
              :: Create ReadData.out_path
              :: Fout ReadData.out_path ("contract_address" +:+ endl)
              :: (Fout ReadData.out_path <$> ((λ a, a +:+ endl) <$> rows')), 0)
    ∧ rows ≡ₚ rows'
    ∧ length rows = length rows'.
Proof.
  apply (contract_list_ignores_repeats
           (file ReadData.in_path ("address,name" +:+ endl +:+ "0xa,Ant" +:+ endl
                                   +:+ "0xb,Bee" +:+ endl +:+ "0xa,Ant"))
           (file ReadData.in_path ("contract" +:+ endl +:+ "0xb,Bee" +:+ endl
                                   +:+ "0xa,Ant"))
           elements (reverse ∘ elements)).
  - intros X. reflexivity.
  - intros X. apply reverse_Permutation.
  - intros l.
    change (ReadData.records
              (file ReadData.in_path ("address,name" +:+ endl +:+ "0xa,Ant" +:+ endl
                                      +:+ "0xb,Bee" +:+ endl +:+ "0xa,Ant")))
      with ["0xa,Ant"; "0xb,Bee"; "0xa,Ant"].
    change (ReadData.records
              (file ReadData.in_path ("contract" +:+ endl +:+ "0xb,Bee" +:+ endl
                                      +:+ "0xa,Ant")))
      with ["0xb,Bee"; "0xa,Ant"].
    rewrite !elem_of_cons, !elem_of_nil. tauto.
Defined.

(** ** When a run completes *)

Lemma increment_Done_inv m k m' :
  AddressFreq.increment m k = Done m' →
  default 0 (m !! k) + 1 ≤ INT_MAX ∧ m' = <[k := default 0 (m !! k) + 1]> m.
Proof.
  unfold AddressFreq.increment, int_add. cbv zeta.
  destruct (Z.leb_spec INT_MIN (default 0 (m !! k) + 1)),
           (Z.leb_spec (default 0 (m !! k) + 1) INT_MAX); simpl; try done.
  by intros [= <-].
Qed.

Lemma count_keys_Done_inv ks m m' :
  count_keys ks m = Done m' →
  (∀ a, default 0 (m' !! a) = default 0 (m !! a) + occurrences a ks)
  ∧ (∀ a, a ∈ ks → default 0 (m' !! a) ≤ INT_MAX).
Proof.
  revert m. induction ks as [|k ks IH]; intros m; simpl.
  - intros [= <-]. split; [intros a; rewrite occurrences_nil; lia|].
    by intros a ?%elem_of_nil.
  - destruct (AddressFreq.increment m k) as [m1| | |] eqn:Hk; simpl; try done.
    intros Hrun. apply increment_Done_inv in Hk as [Hmax ->].
    destruct (IH _ Hrun) as [Hsum Hbound]. split.
    + intros a. rewrite Hsum, occurrences_cons.
      destruct (decide (a = k)) as [->|Hne].
      * rewrite lookup_insert_eq. simpl. lia.
      * rewrite lookup_insert_ne by done. lia.
    + intros a [->|Ha]%elem_of_cons; [|by apply Hbound].
      destruct (decide (k ∈ ks)) as [Hin|Hnotin]; [by apply Hbound|].
      rewrite Hsum, lookup_insert_eq. simpl.
      assert (occurrences k ks = 0); [|lia].
      pose proof (occurrences_nonneg k ks). rewrite occurrences_pos in Hnotin. lia.
Qed.

Lemma count_keys_outcome ks m :
  count_keys ks m ≠ OutOfRange ∧ count_keys ks m ≠ OutOfFuel.
Proof.
  revert m. induction ks as [|k ks IH]; intros m; simpl; [done|].
  destruct (AddressFreq.increment m k) as [m1| | |] eqn:Hk; simpl;
    [apply IH| |done|].
  - unfold AddressFreq.increment, int_add in Hk. cbv zeta in Hk.
    by destruct (_ && _).
  - unfold AddressFreq.increment, int_add in Hk. cbv zeta in Hk.
    by destruct (_ && _).
Qed.

(** X18.  For an input whose lines have their first comma below index
    2^31 - 1 the run never throws, and it completes exactly when no
    address occurs more than 2^31 - 1 times in the two columns; otherwise
    it ends in signed overflow. *)
Theorem run_completes_iff_counts_fit (fs : filesystem)
    (iteration : gmap string Z → list (string * Z)) :
  Forall splittable (AddressFreq.records fs) →
  ((∃ tr, AddressFreq.main iteration fs = Done (tr, 0))
   ↔ ∀ a, occurrences a (addresses (AddressFreq.records fs)) ≤ INT_MAX)
  ∧ ((∃ a, INT_MAX < occurrences a (addresses (AddressFreq.records fs)))
     → AddressFreq.main iteration fs = SignedOverflow).
Proof.
  intros Hsplit. unfold AddressFreq.records in *.
  assert ((∃ m, AddressFreq.read_input fs = Done m)
          → ∀ a, occurrences a (addresses (processed AddressFreq.in_path fs)) ≤ INT_MAX)
    as Hfit.
  { intros [m Hrun] a. rewrite read_input_lines, (count_lines_keys _ _ Hsplit) in Hrun.
    destruct (count_keys_Done_inv _ _ _ Hrun) as [Hsum Hbound].
    destruct (decide (a ∈ addresses (processed AddressFreq.in_path fs))) as [Ha|Ha].
    - specialize (Hbound a Ha). rewrite Hsum, lookup_empty in Hbound. simpl in Hbound. lia.
    - rewrite occurrences_pos in Ha.
      pose proof (occurrences_nonneg a (addresses (processed AddressFreq.in_path fs))).
      unfold INT_MAX. lia. }
  split; [split|].
  - intros [tr Hrun]. apply Hfit. unfold AddressFreq.main in Hrun.
    destruct (AddressFreq.read_input fs) as [m| | |]; [by exists m|done..].
  - intros Hmax. destruct (read_input_spec fs Hsplit Hmax) as (m & Hrun & _).
    eexists. by apply main_report.
  - intros [a Ha]. unfold AddressFreq.main.
    destruct (AddressFreq.read_input fs) as [m| | |] eqn:Hrun; simpl; [| |done|].
    + assert (occurrences a (addresses (processed AddressFreq.in_path fs)) ≤ INT_MAX);
        [|lia]. apply Hfit. by exists m.
    + rewrite read_input_lines, (count_lines_keys _ _ Hsplit) in Hrun.
      by destruct (count_keys_outcome (addresses (processed AddressFreq.in_path fs)) ∅).
    + rewrite read_input_lines, (count_lines_keys _ _ Hsplit) in Hrun.
      by destruct (count_keys_outcome (addresses (processed AddressFreq.in_path fs)) ∅).
Qed.

Lemma run_completes_iff_counts_fit_witness :
  (∃ tr, AddressFreq.main map_to_list (file AddressFreq.in_path sample_twice)
         = Done (tr, 0))
  ↔ ∀ a, occurrences a
           (addresses (AddressFreq.records (file AddressFreq.in_path sample_twice)))
         ≤ INT_MAX.
Proof.
  destruct (run_completes_iff_counts_fit
              (file AddressFreq.in_path sample_twice) map_to_list) as [H _].
  - change (AddressFreq.records (file AddressFreq.in_path sample_twice))
      with ["A,A"; "A,C"].
    repeat constructor; apply short_splittable; by vm_compute.
  - exact H.
Defined.

(** ** Putting inputs together *)

(** X19.  Counts add up: when the records of one input are those of two
    others put one after the other, and the lines and counts fit the
    integer types, the count of every address is the sum of its counts
    for the two parts, an address absent from a table counting as 0. *)
Theorem counts_add_up (fs fs1 fs2 : filesystem) :
  AddressFreq.records fs = AddressFreq.records fs1 ++ AddressFreq.records fs2 →
  Forall splittable (AddressFreq.records fs) →
  (∀ a, occurrences a (addresses (AddressFreq.records fs)) ≤ INT_MAX) →
  ∃ m m1 m2,
    AddressFreq.read_input fs = Done m
    ∧ AddressFreq.read_input fs1 = Done m1
    ∧ AddressFreq.read_input fs2 = Done m2
    ∧ ∀ a, default 0 (m !! a) = default 0 (m1 !! a) + default 0 (m2 !! a).
Proof.
  unfold AddressFreq.records. intros Happ Hsplit Hmax.
  rewrite Happ in Hsplit, Hmax. apply Forall_app in Hsplit as [Hsplit1 Hsplit2].
  assert (∀ a ks, 0 ≤ occurrences a ks) as Hnn by apply occurrences_nonneg.
  destruct (read_input_spec fs) as (m & Hrun & Hm & _).
  { rewrite Happ. by apply Forall_app. }
  { by rewrite Happ. }
  destruct (read_input_spec fs1 Hsplit1) as (m1 & Hrun1 & Hm1 & _).
  { intros a. specialize (Hmax a). rewrite addresses_app in Hmax.
    unfold occurrences in *. rewrite filter_app, length_app in Hmax. lia. }
  destruct (read_input_spec fs2 Hsplit2) as (m2 & Hrun2 & Hm2 & _).
  { intros a. specialize (Hmax a). rewrite addresses_app in Hmax.
    unfold occurrences in *. rewrite filter_app, length_app in Hmax. lia. }
  exists m, m1, m2. split_and!; try done. intros a.
  rewrite Hm, Hm1, Hm2, Happ, addresses_app.
  assert (occurrences a (addresses (processed AddressFreq.in_path fs1)
                         ++ addresses (processed AddressFreq.in_path fs2))
          = occurrences a (addresses (processed AddressFreq.in_path fs1))
            + occurrences a (addresses (processed AddressFreq.in_path fs2))) as ->.
  { unfold occurrences. rewrite filter_app, length_app. lia. }
  pose proof (Hnn a (addresses (processed AddressFreq.in_path fs1))).
  pose proof (Hnn a (addresses (processed AddressFreq.in_path fs2))).
  repeat case_decide; simpl; lia.
Qed.

Lemma counts_add_up_witness :
  ∃ m m1 m2,
    AddressFreq.read_input (file AddressFreq.in_path sample_unterminated) = Done m
    ∧ AddressFreq.read_input
        (file AddressFreq.in_path ("addr,count" +:+ endl +:+ "A,B")) = Done m1
    ∧ AddressFreq.read_input
        (file AddressFreq.in_path ("addr,count" +:+ endl +:+ "A,C")) = Done m2
    ∧ ∀ a, default 0 (m !! a) = default 0 (m1 !! a) + default 0 (m2 !! a).
Proof.
  apply (counts_add_up
           (file AddressFreq.in_path sample_unterminated)
           (file AddressFreq.in_path ("addr,count" +:+ endl +:+ "A,B"))
           (file AddressFreq.in_path ("addr,count" +:+ endl +:+ "A,C"))).
  - reflexivity.
  - change (AddressFreq.records (file AddressFreq.in_path sample_unterminated))
      with ["A,B"; "A,C"].
    repeat constructor; apply short_splittable; by vm_compute.
  - intros a. etrans; [apply occurrences_le_length|]. by vm_compute.
Defined.

(** ** The second field beyond the range of int *)

Lemma to_int_high z :
  INT_MAX < z < 4294967295 → to_int z = z - 4294967296.
Proof.
  intros Hz. unfold to_int, INT_MIN, INT_MAX in *.
  replace (z - -2147483648) with ((z - 2147483648) + 1 * 4294967296) by lia.
  rewrite Z.mod_add by lia. rewrite Z.mod_small; lia.
Qed.

Lemma to_size_t_negative z :
  - SIZE_MAX ≤ z < 0 → to_size_t z = z + (SIZE_MAX + 1).
Proof.
  intros Hz. unfold to_size_t, SIZE_MAX in *.
  replace z with ((z + 18446744073709551616) + (-1) * (18446744073709551615 + 1))
    at 1 by lia.
  rewrite Z.mod_add by lia. rewrite Z.mod_small; lia.
Qed.

(** X20.  Where [get_second_address] stops working: for a first comma at
    index 2^31 - 1 the [int] addition [pos + 1] overflows, and for a first
    comma at an index from 2^31 up to 2^32 - 2 the position read back from
    the [int] is negative and [substr] throws std::out_of_range. *)
Theorem second_field_beyond_int (s : string) (i : nat) :
  index_of comma s = Some i →
  string_size s ≤ 9223372036854775808 →
  (Z.of_nat i = INT_MAX → AddressFreq.get_second_address s = SignedOverflow)
  ∧ (INT_MAX < Z.of_nat i < 4294967295 →
     AddressFreq.get_second_address s = OutOfRange).
Proof.
  intros Hi Hsize. unfold AddressFreq.get_second_address. cbv zeta.
  rewrite (find_first_of_Some _ _ _ Hi). split.
  - intros ->. reflexivity.
  - intros Hhigh. rewrite (to_int_high _ Hhigh).
    rewrite int_add_small by in_range. cbn [mbind outcome_bind].
    rewrite (to_size_t_negative (Z.of_nat i - 4294967296 + 1)) by in_range.
    unfold substr.
    destruct (Z.ltb_spec (string_size s)
                (Z.of_nat i - 4294967296 + 1 + (SIZE_MAX + 1))) as [_|Hle]; [done|].
    unfold SIZE_MAX, INT_MAX in *. lia.
Qed.

Lemma second_field_beyond_int_witness :
  AddressFreq.get_second_address giant_line = OutOfRange.
Proof.
  assert (index_of comma giant_line = Some (Z.to_nat 2147483648)) as Hi.
  { unfold giant_line. change ",b" with (String comma "b").
    by apply giant_line_comma. }
  destruct (second_field_beyond_int giant_line (Z.to_nat 2147483648) Hi) as [_ H].
  - unfold giant_line. rewrite string_size_app. unfold string_size.
    rewrite str_repeat_length. change (String.length ",b") with 2%nat. lia.
  - apply H. rewrite Z2Nat.id by lia. unfold INT_MAX. lia.
Defined.

